(** * rpi_simple_debugger.gpio_monitor: the GPIO polling monitor

    A shallow embedding of [src/rpi_simple_debugger/gpio_monitor.py]:
    the two dataclasses [GPIOState] and [AllGPIOStates], the monitor
    object with its cache and stop event, the operations [start], [stop],
    [get_all_states] and one iteration of [_loop], and a small machine that
    schedules the monitor's calls against its background thread. *)

From Stdlib Require Import QArith.
From stdpp Require Import gmap strings numbers pretty.
From stdpp Require Import list.

Local Open Scope Z_scope.

(** ** Python values that occur in the module *)

(** What [GPIO.input(pin)] may hand back: an [int] or a [bool]
    ([GPIO.HIGH]/[GPIO.LOW] are the ints 1 and 0; a boolean is accepted by
    [int()] all the same). *)
Inductive raw : Type :=
  | RawInt (z : Z)
  | RawBool (b : bool).

(** Python's [int(value)] on those: an int is unchanged, [True] is 1 and
    [False] is 0. Nothing is clamped. *)
Definition int (v : raw) : Z :=
  match v with
  | RawInt z => z
  | RawBool b => if b then 1 else 0
  end.

(** The values of the inner dictionaries of a snapshot ([Dict[str, Any]]). *)
Inductive pyval : Type :=
  | PyInt (z : Z)
  | PyStr (s : string)
  | PyNone.

Definition py_optional_str (o : option string) : pyval :=
  match o with
  | Some s => PyStr s
  | None => PyNone
  end.

(** A call either returns or raises. *)
Inductive outcome (A : Type) : Type :=
  | Returns (a : A)
  | Raises.
Arguments Returns {A} a.
Arguments Raises {A}.

(** ** Insertion-ordered dictionaries

    A Python [dict] keeps its keys in insertion order; assigning to a key
    that is present replaces the value and leaves the key where it is. *)
Section ordered_dict.
Context {K V : Type} `{EqDecision K}.

Fixpoint dict_set (k : K) (v : V) (d : list (K * V)) : list (K * V) :=
  match d with
  | [] => [(k, v)]
  | (k', v') :: d' =>
      if decide (k = k') then (k, v) :: d' else (k', v') :: dict_set k v d'
  end.

Fixpoint dict_get (k : K) (d : list (K * V)) : option V :=
  match d with
  | [] => None
  | (k', v') :: d' => if decide (k = k') then Some v' else dict_get k d'
  end.

Definition dict_keys (d : list (K * V)) : list K := d.*1.
End ordered_dict.

(** The keys of a list in order of first occurrence. *)
Fixpoint first_occurrences (l : list Z) : list Z :=
  match l with
  | [] => []
  | x :: l' => x :: filter (λ y, y ≠ x) (first_occurrences l')
  end.

(** ** The dataclasses *)

(** [@dataclass class GPIOState]. *)
Record GPIOState : Type := mkGPIOState {
  pin : Z;
  value : Z;
  label : option string;
}.

(** The dictionary literal of [AllGPIOStates.__init__], for one state. *)
Definition state_dict (s : GPIOState) : list (string * pyval) :=
  [ ("pin"%string, PyInt (pin s));
    ("value"%string, PyInt (value s));
    ("label"%string, py_optional_str (label s)) ].

(** [@dataclass class AllGPIOStates]; [pins] is the only field. *)
Record AllGPIOStates : Type := mkAllGPIOStates {
  pins : list (Z * list (string * pyval));
}.

(** [AllGPIOStates.__init__]: the dict comprehension inserts one entry per
    element of [states], in list order. *)
Definition AllGPIOStates_init (states : list GPIOState) : AllGPIOStates :=
  {| pins := foldl (λ d s, dict_set (pin s) (state_dict s) d) [] states |}.

Definition to_dict (a : AllGPIOStates) : list (Z * list (string * pyval)) :=
  pins a.

(** ** The monitor object *)

(** The fields set by [GPIOMonitor.__init__]. The callback [_on_update] is
    the consumer; its invocations are recorded in the world's log below.
    [_thread] names a thread of the world's thread table; [_stop] is the
    [threading.Event]. *)
Record GPIOMonitor : Type := mkGPIOMonitor {
  _pins : list Z;
  _label_map : gmap Z string;
  _interval_s : Q;
  _thread : option nat;
  _stop : bool;
  _last_values : gmap Z Z;
}.

Definition GPIOMonitor_init (ps : list Z) (lm : gmap Z string) (iv : Q)
  : GPIOMonitor :=
  {| _pins := ps; _label_map := lm; _interval_s := iv;
     _thread := None; _stop := false; _last_values := ∅ |}.

(** [dict.get(pin, 0)] on the cache. *)
Definition cache_get (c : gmap Z Z) (p : Z) : Z := default 0 (c !! p).

(** The body of the [for] of [get_all_states], for one pin. *)
Definition state_of (c : gmap Z Z) (lm : gmap Z string) (p : Z) : GPIOState :=
  {| pin := p; value := cache_get c p; label := lm !! p |}.

(** [GPIOMonitor.get_all_states]: appends one state per element of
    [_pins], in order. *)
Definition get_all_states (m : GPIOMonitor) : list GPIOState :=
  foldl (λ states p, states ++ [state_of (_last_values m) (_label_map m) p])
        [] (_pins m).

(** ** The world the monitor runs in *)

(** The module [RPi.GPIO] when the import succeeded. Its inputs are not
    under the program's control: the [n]-th call of [GPIO.input] in the
    run, on pin [p], either returns a value or raises. The module-level
    name [GPIO] is [Some] of such a module, or [None] after a failed import. *)
Definition RPiGPIO : Type := nat → Z → outcome raw.

(** What the monitor does to its surroundings, in program order. *)
Inductive event : Type :=
  | EvSetmode                       (* GPIO.setmode(GPIO.BCM) *)
  | EvSetup (p : Z)                 (* GPIO.setup(pin, GPIO.IN) *)
  | EvCleanup                       (* GPIO.cleanup() *)
  | EvInput (p : Z) (r : outcome raw) (* GPIO.input(pin) and its result *)
  | EvUpdate (s : AllGPIOStates)    (* self._on_update(snapshot) *)
  | EvSleep (t : Q)                 (* time.sleep(t) *)
  | EvJoin (timeout : Q)            (* self._thread.join(timeout=...) *)
  | EvThreadStart (t : nat).        (* threading.Thread(...).start() *)

(** The monitor object together with what it shares the process with:
    [threads] holds [is_alive()] of every thread created so far (a thread
    is named by its index), [channels] the pins the hardware has set up
    and not yet cleaned up, [reads] the number of [GPIO.input] calls made,
    [log] the events so far. Callers of [start], [stop] and
    [get_all_states] are threads other than the sampling thread, and the
    consumer's callback returns. *)
Record World : Type := mkWorld {
  monitor : GPIOMonitor;
  threads : list bool;
  channels : list Z;
  reads : nat;
  log : list event;
}.

Definition World_init (m : GPIOMonitor) : World :=
  {| monitor := m; threads := []; channels := []; reads := 0%nat; log := [] |}.

(** State passing with exceptions: a computation ends by returning or by
    raising, and leaves a world behind either way. *)
Definition M (A : Type) : Type := World → outcome A * World.

Definition ret {A : Type} (a : A) : M A := λ w, (Returns a, w).

Definition bind {A B : Type} (c : M A) (k : A → M B) : M B :=
  λ w, match c w with
       | (Returns a, w') => k a w'
       | (Raises, w') => (Raises, w')
       end.

Notation "'let*' x ':=' c 'in' k" := (bind c (λ x, k))
  (at level 10, x name, c at level 100, k at level 200).
Notation "c ';;' k" := (bind c (λ _, k))
  (at level 100, k at level 200, right associativity).

Definition raise {A : Type} : M A := λ w, (Raises, w).
Definition gets {A : Type} (f : World → A) : M A := λ w, (Returns (f w), w).
Definition modify (f : World → World) : M unit := λ w, (Returns tt, f w).

(** [for x in l: body(x)]. *)
Fixpoint for_each {A : Type} (l : list A) (body : A → M unit) : M unit :=
  match l with
  | [] => ret tt
  | x :: l' => body x ;; for_each l' body
  end.

Definition with_monitor (f : GPIOMonitor → GPIOMonitor) (w : World) : World :=
  {| monitor := f (monitor w); threads := threads w; channels := channels w;
     reads := reads w; log := log w |}.

Definition emit (e : event) : M unit :=
  modify (λ w, {| monitor := monitor w; threads := threads w;
                  channels := channels w; reads := reads w;
                  log := log w ++ [e] |}).

Definition set_stop (b : bool) (m : GPIOMonitor) : GPIOMonitor :=
  {| _pins := _pins m; _label_map := _label_map m;
     _interval_s := _interval_s m; _thread := _thread m; _stop := b;
     _last_values := _last_values m |}.

Definition set_thread (t : option nat) (m : GPIOMonitor) : GPIOMonitor :=
  {| _pins := _pins m; _label_map := _label_map m;
     _interval_s := _interval_s m; _thread := t; _stop := _stop m;
     _last_values := _last_values m |}.

(** [self._last_values[pin] = v]. *)
Definition set_last_value (p v : Z) (m : GPIOMonitor) : GPIOMonitor :=
  {| _pins := _pins m; _label_map := _label_map m;
     _interval_s := _interval_s m; _thread := _thread m; _stop := _stop m;
     _last_values := <[p := v]> (_last_values m) |}.

(** [self._thread and self._thread.is_alive()]. *)
Definition thread_alive (w : World) : bool :=
  match _thread (monitor w) with
  | Some t => default false (threads w !! t)
  | None => false
  end.

(** The hardware calls. Of these only [GPIO.input] is taken to be able to
    raise; [setmode], [setup] and [cleanup] return. *)
Definition GPIO_setup (p : Z) : M unit :=
  modify (λ w, {| monitor := monitor w; threads := threads w;
                  channels := channels w ++ [p]; reads := reads w;
                  log := log w |}) ;;
  emit (EvSetup p).

Definition GPIO_cleanup : M unit :=
  modify (λ w, {| monitor := monitor w; threads := threads w;
                  channels := []; reads := reads w; log := log w |}) ;;
  emit EvCleanup.

Definition GPIO_input (hw : RPiGPIO) (p : Z) : M raw :=
  λ w, let r := hw (reads w) p in
       (r, {| monitor := monitor w; threads := threads w;
              channels := channels w; reads := S (reads w);
              log := log w ++ [EvInput p r] |}).

(** [threading.Thread(target=self._loop, daemon=True)] then [.start()]:
    a new live thread, remembered in [_thread]. *)
Definition spawn : M unit :=
  λ w, let t := length (threads w) in
       emit (EvThreadStart t)
         {| monitor := set_thread (Some t) (monitor w);
            threads := threads w ++ [true]; channels := channels w;
            reads := reads w; log := log w |}.

(** The thread [t] is over. *)
Definition thread_exit (t : nat) (w : World) : World :=
  {| monitor := monitor w; threads := <[t := false]> (threads w);
     channels := channels w; reads := reads w; log := log w |}.

(** [time.sleep(t)]: a negative [t] raises [ValueError] and nothing is
    slept; any other [t] is slept. *)
Definition time_sleep (t : Q) : M unit :=
  if Qle_bool 0 t then emit (EvSleep t) else raise.

(** How far the [while] of [_loop] has come. *)
Inductive loop_end : Type :=
  | LoopReturned   (* the stop event was found set and [_loop] returned *)
  | LoopRaised     (* an exception left [_loop] *)
  | LoopRunning.   (* the [while] has not been left *)

(** The timeout of the [join] in [stop], in seconds. *)
Definition join_timeout : Q := 1%Q.

Section monitor_operations.
(** The module-level [GPIO]. *)
Variable GPIO : option RPiGPIO.

(** [GPIOMonitor.start]. *)
Definition start : M unit :=
  match GPIO with
  | None => ret tt
  | Some _ =>
      λ w, if thread_alive w then ret tt w
           else (emit EvSetmode ;;
                 for_each (_pins (monitor w)) GPIO_setup ;;
                 modify (with_monitor (set_stop false)) ;;
                 spawn) w
  end.

(** [GPIOMonitor.stop]. The [join] waits up to [join_timeout]; whether
    the sampling thread has left its loop by then is not up to [stop]:
    [exited] tells which of the two happened. *)
Definition stop (exited : bool) : M unit :=
  modify (with_monitor (set_stop true)) ;;
  (λ w, if thread_alive w
        then (emit (EvJoin join_timeout) ;;
              modify (λ w', if exited
                            then match _thread (monitor w') with
                                 | Some t => thread_exit t w'
                                 | None => w'
                                 end
                            else w')) w
        else ret tt w) ;;
  match GPIO with
  | Some _ => GPIO_cleanup
  | None => ret tt
  end.

(** Lines 110-111: [value = GPIO.input(pin) if GPIO is not None else 0]
    and [self._last_values[pin] = int(value)]. *)
Definition read_pin (p : Z) : M unit :=
  let* v := match GPIO with
            | Some hw => GPIO_input hw p
            | None => ret (RawInt 0)
            end in
  modify (with_monitor (set_last_value p (int v))).

(** The body of the [while] of [_loop]: one tick. *)
Definition loop_body : M unit :=
  (λ w, for_each (_pins (monitor w)) read_pin w) ;;
  let* all_states := gets (λ w, get_all_states (monitor w)) in
  emit (EvUpdate (AllGPIOStates_init all_states)) ;;
  let* t := gets (λ w, _interval_s (monitor w)) in
  time_sleep t.

(** [_loop] followed on its own for at most [n] rounds of the [while], a
    round being the test of the stop event, then the body. The [while] is
    left only when the test finds the event set or when the body raises;
    after [n] rounds that did neither, it is still running. *)
Fixpoint _loop (n : nat) (w : World) : loop_end * World :=
  match n with
  | O => (LoopRunning, w)
  | S n' =>
      if _stop (monitor w) then (LoopReturned, w)
      else match loop_body w with
           | (Returns _, w') => _loop n' w'
           | (Raises, w') => (LoopRaised, w')
           end
  end.
End monitor_operations.

(** ** The machine: client calls against the sampling thread

    One step is a whole call of [start] or [stop] by a client, or one round
    of the [while] of [_loop] by a thread: the test of the stop event, then
    the body. An exception that leaves [_loop] ends its thread. A round is
    taken as indivisible: a call that in the program falls between the test
    of line 107 and the end of the body is placed before or after the
    round, so that a tick in flight while [stop] runs is not represented. *)
Inductive client_call : Type :=
  | Start
  | Stop (exited : bool).

Inductive call : Type :=
  | Client (c : client_call)
  | Round (t : nat).

Section machine.
Variable GPIO : option RPiGPIO.

Definition round (t : nat) (w : World) : World :=
  if default false (threads w !! t) then
    if _stop (monitor w) then thread_exit t w
    else match loop_body GPIO w with
         | (Returns _, w') => w'
         | (Raises, w') => thread_exit t w'
         end
  else w.

Definition step (w : World) (c : call) : World :=
  match c with
  | Client Start => (start GPIO w).2
  | Client (Stop exited) => (stop GPIO exited w).2
  | Round t => round t w
  end.

Definition run (cs : list call) (w : World) : World := foldl step w cs.
End machine.

(** The snapshots handed to the callback, oldest first. *)
Definition snapshots (l : list event) : list AllGPIOStates :=
  omap (λ e, match e with EvUpdate s => Some s | _ => None end) l.

(** The value a snapshot reports for a pin. *)
Definition snapshot_value (s : AllGPIOStates) (p : Z) : option pyval :=
  d ← dict_get p (pins s); dict_get "value"%string d.

(** [self._last_values[p] = v] for each pair of [ws], in order. *)
Definition apply_writes (ws : list (Z * Z)) (c : gmap Z Z) : gmap Z Z :=
  foldl (λ c pv, <[pv.1 := pv.2]> c) c ws.

Definition set_cache (c : gmap Z Z) (m : GPIOMonitor) : GPIOMonitor :=
  {| _pins := _pins m; _label_map := _label_map m;
     _interval_s := _interval_s m; _thread := _thread m; _stop := _stop m;
     _last_values := c |}.

(** The [for] of lines 109-111 seen from outside, started when [n] calls
    of [GPIO.input] have been made: how it ends, the cache assignments it
    makes, the number of calls afterwards, and the events it adds. *)
Fixpoint scan_pins (GPIO : option RPiGPIO) (n : nat) (ps : list Z)
  : outcome unit * list (Z * Z) * nat * list event :=
  match ps with
  | [] => (Returns tt, [], n, [])
  | p :: ps' =>
      match GPIO with
      | None =>
          let '(r, ws, n', evs) := scan_pins GPIO n ps' in
          (r, (p, 0) :: ws, n', evs)
      | Some hw =>
          match hw n p with
          | Returns v =>
              let '(r, ws, n', evs) := scan_pins GPIO (S n) ps' in
              (r, (p, int v) :: ws, n', EvInput p (Returns v) :: evs)
          | Raises => (Raises, [], S n, [EvInput p Raises])
          end
      end
  end.

(** ** The worlds a call or a round leaves behind *)

(** The world after the [for] of lines 109-111 made the assignments [ws]
    and added the events [evs], with [n'] calls of [GPIO.input] made. *)
Definition after_scan (w : World) (ws : list (Z * Z)) (n' : nat)
    (evs : list event) : World :=
  {| monitor := set_cache (apply_writes ws (_last_values (monitor w))) (monitor w);
     threads := threads w; channels := channels w; reads := n';
     log := log w ++ evs |}.

(** The world after the second half of a tick: the snapshot is built from
    the cache as it is now and handed to the callback, then the thread
    sleeps. *)
Definition after_emit (w : World) : World :=
  {| monitor := monitor w; threads := threads w; channels := channels w;
     reads := reads w;
     log := log w ++
            [EvUpdate (AllGPIOStates_init (get_all_states (monitor w)));
             EvSleep (_interval_s (monitor w))] |}.

(** The world after the snapshot was built and handed to the callback,
    when [time.sleep] then raised. *)
Definition after_update (w : World) : World :=
  {| monitor := monitor w; threads := threads w; channels := channels w;
     reads := reads w;
     log := log w ++
            [EvUpdate (AllGPIOStates_init (get_all_states (monitor w)))] |}.

(** The world after a [start] that went through: the pins are set up,
    the stop event is cleared and a fresh thread runs [_loop]. *)
Definition started (w : World) : World :=
  {| monitor := set_thread (Some (length (threads w)))
                  (set_stop false (monitor w));
     threads := threads w ++ [true];
     channels := channels w ++ _pins (monitor w);
     reads := reads w;
     log := log w ++ EvSetmode :: (EvSetup <$> _pins (monitor w)) ++
              [EvThreadStart (length (threads w))] |}.

(** The world after [stop]. *)
Definition stopped GPIO (exited : bool) (w : World) : World :=
  {| monitor := set_stop true (monitor w);
     threads := match _thread (monitor w) with
                | Some t => if thread_alive w && exited
                            then <[t := false]> (threads w) else threads w
                | None => threads w
                end;
     channels := match GPIO : option RPiGPIO with
                 | Some _ => []
                 | None => channels w
                 end;
     reads := reads w;
     log := log w ++ (if thread_alive w then [EvJoin join_timeout] else [])
              ++ match GPIO with Some _ => [EvCleanup] | None => [] end |}.

(** One of the four values a digital read is meant to return. *)
Definition raw_bit (v : raw) : Prop :=
  v = RawInt 0 ∨ v = RawInt 1 ∨ v = RawBool false ∨ v = RawBool true.

(** The hardware only ever answers 0, 1, [False] or [True]. *)
Definition bit_reads (GPIO : option RPiGPIO) : Prop :=
  ∀ hw n p v, GPIO = Some hw → hw n p = Returns v → raw_bit v.

Definition is_bit (z : Z) : Prop := z = 0 ∨ z = 1.

(** [z] is what lines 110-111 store for pin [p] at some read: [int] of a
    value [GPIO.input(p)] returned, or the 0 taken without the hardware
    module. *)
Definition stored_by_read (GPIO : option RPiGPIO) (p z : Z) : Prop :=
  match GPIO with
  | Some hw => ∃ n v, hw n p = Returns v ∧ z = int v
  | None => z = 0
  end.

(** A value reported for pin [p]: the default 0, or one stored at a read. *)
Definition reported (GPIO : option RPiGPIO) (p z : Z) : Prop :=
  z = 0 ∨ stored_by_read GPIO p z.

(** A snapshot entry whose value field is an integer reported for its pin. *)
Definition reported_entry (GPIO : option RPiGPIO)
    (kv : Z * list (string * pyval)) : Prop :=
  ∃ z, dict_get "value"%string kv.2 = Some (PyInt z) ∧ reported GPIO kv.1 z.

(** ** The steps of the machine, case by case *)

Section step_results.
Variable GPIO : option RPiGPIO.

(** What a round of the [while] can do to the world. *)
Inductive round_result (t : nat) (w : World) : World → Prop :=
  | round_idle :
      default false (threads w !! t) = false →
      round_result t w w
  | round_exit :
      default false (threads w !! t) = true →
      _stop (monitor w) = true →
      round_result t w (thread_exit t w)
  | round_raise ws n' evs :
      default false (threads w !! t) = true →
      _stop (monitor w) = false →
      scan_pins GPIO (reads w) (_pins (monitor w)) = (Raises, ws, n', evs) →
      round_result t w (thread_exit t (after_scan w ws n' evs))
  | round_sleep_raise ws n' evs :
      default false (threads w !! t) = true →
      _stop (monitor w) = false →
      scan_pins GPIO (reads w) (_pins (monitor w)) = (Returns tt, ws, n', evs) →
      Qle_bool 0 (_interval_s (monitor w)) = false →
      round_result t w (thread_exit t (after_update (after_scan w ws n' evs)))
  | round_tick ws n' evs :
      default false (threads w !! t) = true →
      _stop (monitor w) = false →
      scan_pins GPIO (reads w) (_pins (monitor w)) = (Returns tt, ws, n', evs) →
      Qle_bool 0 (_interval_s (monitor w)) = true →
      round_result t w (after_emit (after_scan w ws n' evs)).

(** What a step can do to the world. *)
Inductive step_result (w : World) : World → Prop :=
  | step_nothing : step_result w w
  | step_started hw :
      GPIO = Some hw → thread_alive w = false → step_result w (started w)
  | step_stopped exited : step_result w (stopped GPIO exited w)
  | step_round t w' : round_result t w w' → step_result w w'.
End step_results.

(** ** Invariants of the machine *)

(** The configuration never changes, every snapshot handed out is keyed by
    the configured pins, and a live thread is the one in [_thread]. *)
Record well_formed (ps : list Z) (lm : gmap Z string) (iv : Q) (w : World)
  : Prop := {
  wf_pins : _pins (monitor w) = ps;
  wf_labels : _label_map (monitor w) = lm;
  wf_interval : _interval_s (monitor w) = iv;
  wf_snapshots :
    Forall (λ s, dict_keys (pins s) = first_occurrences ps) (snapshots (log w));
  wf_alive : ∀ t, threads w !! t = Some true → _thread (monitor w) = Some t;
}.

(** A snapshot has one entry per configured pin identifier and no other:
    its keys are the configured pins, each once, in order of first
    appearance in the configuration. *)
Definition covers (ps : list Z) (s : AllGPIOStates) : Prop :=
  NoDup (dict_keys (pins s)) ∧
  (∀ p, p ∈ dict_keys (pins s) ↔ p ∈ ps) ∧
  dict_keys (pins s) = first_occurrences ps.

(** All a monitor can become when [GPIO] is [None]: the initial world, up
    to the stop event. *)
Definition idle (ps : list Z) (lm : gmap Z string) (iv : Q) (w : World) : Prop :=
  ∃ b, w = World_init (set_stop b (GPIOMonitor_init ps lm iv)).

(** The states reported for an empty cache. *)
Definition default_states (ps : list Z) (lm : gmap Z string) : list GPIOState :=
  (λ p, {| pin := p; value := 0; label := lm !! p |}) <$> ps.

(** A snapshot entry whose value field is 0 or 1. *)
Definition bit_entry (kv : Z * list (string * pyval)) : Prop :=
  dict_get "value"%string kv.2 = Some (PyInt 0) ∨
  dict_get "value"%string kv.2 = Some (PyInt 1).

(** The cache holds only values stored at reads, and the snapshots handed
    out only values reported for their pins. *)
Definition from_reads (GPIO : option RPiGPIO) (w : World) : Prop :=
  map_Forall (stored_by_read GPIO) (_last_values (monitor w)) ∧
  Forall (λ s, Forall (reported_entry GPIO) (pins s)) (snapshots (log w)).

(** ** The cache under concurrent access

    Nothing in the module locks [_last_values]. The sampling thread assigns
    it one pin at a time (line 111) and a caller of [get_all_states] reads
    it one pin at a time (line 96); the interpreter may switch threads
    between any two of these accesses, each of which is atomic. *)
Inductive turn : Type :=
  | Sampler    (* the next assignment of the [for] of lines 109-111 *)
  | Reader.    (* the next round of the [for] of [get_all_states] *)

(** The two [for] loops run against each other under a schedule: [c] is
    the cache, [ws] the assignments the sampling thread has still to make
    in this pass, [ps] the pins the caller has still to visit, [acc] its
    [states] so far. A turn given to a loop that is through is skipped. *)
Fixpoint interleave (lm : gmap Z string) (sched : list turn) (c : gmap Z Z)
    (ws : list (Z * Z)) (ps : list Z) (acc : list GPIOState)
  : gmap Z Z * list (Z * Z) * list Z * list GPIOState :=
  match sched with
  | [] => (c, ws, ps, acc)
  | Sampler :: sched' =>
      match ws with
      | [] => interleave lm sched' c [] ps acc
      | pv :: ws' => interleave lm sched' (<[pv.1 := pv.2]> c) ws' ps acc
      end
  | Reader :: sched' =>
      match ps with
      | [] => interleave lm sched' c ws [] acc
      | p :: ps' => interleave lm sched' c ws ps' (acc ++ [state_of c lm p])
      end
  end.

(** The state reported for [p] is the one the cache gave at some moment of
    the pass that makes the assignments [ws] from the cache [c]. *)
Definition seen_at (lm : gmap Z string) (ws : list (Z * Z)) (c : gmap Z Z)
    (p : Z) (s : GPIOState) : Prop :=
  ∃ k, (k ≤ length ws)%nat ∧ s = state_of (apply_writes (take k ws) c) lm p.

(** ** Concrete hardware for the examples *)

(** Pins 17 and 27, pin 17 labelled, polled every 10 ms. *)
Definition demo_monitor : GPIOMonitor :=
  GPIOMonitor_init [17; 27] {[ 17 := "button"%string ]} (1 # 100).

(** Pin 17 is high, every other pin low. *)
Definition hw_button : RPiGPIO :=
  λ _ p, Returns (RawInt (if decide (p = 17) then 1 else 0)).

(** Every pin reads 1; the fourth call of [GPIO.input] and all later ones
    raise. *)
Definition hw_breaks : RPiGPIO :=
  λ n _, if decide (n < 3)%nat then Returns (RawInt 1) else Raises.

(** A module that answers with booleans: [True] for pin 17, [False] for
    every other pin. *)
Definition hw_bool : RPiGPIO := λ _ p, Returns (RawBool (bool_decide (p = 17))).

(** A module whose [input] answers 5 for every pin. *)
Definition hw_five : RPiGPIO := λ _ _, Returns (RawInt 5).

(** Every pin reads 0 in the first two calls and 1 afterwards. *)
Definition hw_rising : RPiGPIO :=
  λ n _, Returns (RawInt (if decide (n < 2)%nat then 0 else 1)).

(** The cache has entries for configured pins only, and for all of them
    once a tick has been completed. *)
Definition cache_within (ps : list Z) (w : World) : Prop :=
  (∀ p, is_Some (_last_values (monitor w) !! p) → p ∈ ps) ∧
  (snapshots (log w) = [] ∨
   ∀ p, p ∈ ps → is_Some (_last_values (monitor w) !! p)).

(** A snapshot with an entry of pin, value and label for every configured
    pin and for no other. *)
Definition populated (ps : list Z) (lm : gmap Z string) (s : AllGPIOStates)
  : Prop :=
  ∃ c : gmap Z Z, ∀ p,
    dict_get p (pins s) =
      if decide (p ∈ ps) then Some (state_dict (state_of c lm p)) else None.

(** While the sampling thread is alive and not told to stop, every
    configured pin is set up in the hardware. *)
Definition ready (ps : list Z) (w : World) : Prop :=
  thread_alive w = true → _stop (monitor w) = false → ps ⊆ channels w.

(** The hardware module, when there is one, answers every read. *)
Definition always_returns (GPIO : option RPiGPIO) : Prop :=
  ∀ hw n p, GPIO = Some hw → ∃ v, hw n p = Returns v.

(** ** The subscriber's choice of URL

    [tests/ws_subscriber.py], the end of [main]: [--url], [--host] and
    [--port] come from argparse with the defaults "ws://localhost:8000/ws",
    "localhost" and 8000; the port is an [int] and is formatted in decimal
    by the f-string. *)
Definition default_url : string := "ws://localhost:8000/ws".

(** Lines 127-130: the URL handed to [subscribe]. *)
Definition main_url (url host : string) (port : Z) : string :=
  if bool_decide (url = default_url)
     && (bool_decide (host ≠ "localhost"%string) || bool_decide (port ≠ 8000))
  then "ws://" +:+ host +:+ ":" +:+ pretty port +:+ "/ws"
  else url.

(** * Properties *)

(** ** The pull accessor is a map over the configured pins *)

Lemma foldl_snoc_fmap {A B : Type} (f : A → B) (l : list A) (acc : list B) :
  foldl (λ states x, states ++ [f x]) acc l = acc ++ (f <$> l).
Proof.
  revert acc. induction l as [|x l IH]; intros acc; simpl.
  - by rewrite app_nil_r.
  - rewrite IH. by rewrite <- app_assoc.
Qed.

Lemma get_all_states_fmap (m : GPIOMonitor) :
  get_all_states m = state_of (_last_values m) (_label_map m) <$> _pins m.
Proof. unfold get_all_states. by rewrite foldl_snoc_fmap. Qed.

Lemma get_all_states_pins (m : GPIOMonitor) :
  pin <$> get_all_states m = _pins m.
Proof.
  rewrite get_all_states_fmap, <- list_fmap_compose.
  induction (_pins m) as [|p l IH]; simpl; [done | by f_equal].
Qed.

(** ** Insertion-ordered dictionaries *)

Section ordered_dict_facts.
Context {V : Type}.
Implicit Types (d : list (Z * V)) (k : Z) (v : V).

Lemma dict_keys_set k v d :
  dict_keys (dict_set k v d) =
    if decide (k ∈ dict_keys d) then dict_keys d else dict_keys d ++ [k].
Proof.
  unfold dict_keys. induction d as [|[k' v'] d IH].
  - case_decide as Hin; [by apply elem_of_nil in Hin | done].
  - cbn [dict_set]. destruct (decide (k = k')) as [->|Hne].
    + rewrite decide_True; [done | rewrite fmap_cons; left].
    + rewrite !fmap_cons, IH. cbn [fst].
      destruct (decide (k ∈ d.*1)) as [Hin|Hnin].
      * rewrite decide_True; [done | by right].
      * rewrite decide_False; [done |].
        intros Hin. apply elem_of_cons in Hin as [?|?]; done.
Qed.

Lemma dict_get_set k k' v d :
  dict_get k' (dict_set k v d) =
    if decide (k' = k) then Some v else dict_get k' d.
Proof.
  induction d as [|[k0 v0] d IH]; simpl.
  - by destruct (decide (k' = k)).
  - destruct (decide (k = k0)) as [->|Hne]; simpl.
    + by destruct (decide (k' = k0)).
    + rewrite IH. destruct (decide (k' = k0)) as [->|?]; [|done].
      by rewrite decide_False.
Qed.
End ordered_dict_facts.

Lemma first_occurrences_elem (l : list Z) (x : Z) :
  x ∈ first_occurrences l ↔ x ∈ l.
Proof.
  induction l as [|y l IH]; simpl; [done|].
  rewrite !elem_of_cons, list_elem_of_filter, IH.
  destruct (decide (x = y)); tauto.
Qed.

Lemma first_occurrences_NoDup (l : list Z) : NoDup (first_occurrences l).
Proof.
  induction l as [|y l IH]; simpl; [constructor|].
  constructor.
  - rewrite list_elem_of_filter. tauto.
  - by apply NoDup_filter.
Qed.

Lemma filter_ne_id (l : list Z) (x : Z) :
  x ∉ l → filter (λ y, y ≠ x) l = l.
Proof.
  induction l as [|y l IH]; intros Hx; [done|].
  apply not_elem_of_cons in Hx as [Hne Hx].
  rewrite filter_cons_True by done. by rewrite IH.
Qed.

Lemma first_occurrences_id (l : list Z) : NoDup l → first_occurrences l = l.
Proof.
  induction 1 as [|x l Hx Hl IH]; simpl; [done|].
  rewrite IH. by rewrite filter_ne_id.
Qed.

Lemma first_occurrences_length (l : list Z) :
  (length (first_occurrences l) ≤ length l)%nat.
Proof.
  induction l as [|x l IH]; simpl; [done|].
  pose proof (length_filter (λ y, y ≠ x) (first_occurrences l)). lia.
Qed.

Lemma first_occurrences_length_NoDup (l : list Z) :
  length (first_occurrences l) = length l ↔ NoDup l.
Proof.
  split; [|by intros ->%first_occurrences_id].
  induction l as [|x l IH]; simpl; [constructor|].
  intros Hlen.
  pose proof (length_filter (λ y, y ≠ x) (first_occurrences l)) as Hf.
  pose proof (first_occurrences_length l) as Hl.
  assert (length (first_occurrences l) = length l) as Heq by lia.
  constructor; [|by apply IH].
  intros Hin. apply first_occurrences_elem in Hin.
  assert (length (filter (λ y, y ≠ x) (first_occurrences l))
          < length (first_occurrences l))%nat; [|lia].
  clear -Hin. induction (first_occurrences l) as [|y l' IH]; [by inversion Hin|].
  apply elem_of_cons in Hin as [->|Hin].
  - rewrite filter_cons_False by tauto. simpl.
    pose proof (length_filter (λ y0, y0 ≠ y) l'). lia.
  - specialize (IH Hin). destruct (decide (y ≠ x)).
    + rewrite filter_cons_True by done. simpl. lia.
    + rewrite filter_cons_False by done. simpl. lia.
Qed.

Lemma dict_set_Forall {V : Type} (P : Z * V → Prop) k v (d : list (Z * V)) :
  P (k, v) → Forall P d → Forall P (dict_set k v d).
Proof.
  intros Hkv. induction 1 as [|[k' v'] d Hx Hd IH]; cbn [dict_set].
  - by repeat constructor.
  - destruct (decide (k = k')); constructor; done.
Qed.

(** ** The snapshot container *)

Section snapshot_container.
Abbreviation comprehension :=
  (foldl (λ d s, dict_set (pin s) (state_dict s) d)).

Lemma comprehension_keys (states : list GPIOState) d :
  dict_keys (comprehension d states) =
    dict_keys d ++
    filter (λ k, k ∉ dict_keys d) (first_occurrences (pin <$> states)).
Proof.
  revert d. induction states as [|s states IH]; intros d.
  - by rewrite app_nil_r.
  - cbn [foldl fmap list_fmap first_occurrences]. rewrite IH, dict_keys_set.
    destruct (decide (pin s ∈ dict_keys d)) as [Hin|Hnin].
    + rewrite filter_cons_False by tauto.
      by rewrite list_filter_filter_l by (intros x ? ->; done).
    + rewrite filter_cons_True by done.
      rewrite <- app_assoc. cbn [app]. do 2 f_equal.
      rewrite list_filter_filter. apply list_filter_iff. intros x.
      rewrite elem_of_app, list_elem_of_singleton. tauto.
Qed.

Lemma AllGPIOStates_keys (states : list GPIOState) :
  dict_keys (pins (AllGPIOStates_init states)) =
    first_occurrences (pin <$> states).
Proof.
  cbn [AllGPIOStates_init pins]. rewrite comprehension_keys.
  change (dict_keys (V:=list (string * pyval)) []) with (@nil Z). cbn [app].
  induction (first_occurrences (pin <$> states)) as [|k l IH]; [done|].
  rewrite filter_cons_True by apply not_elem_of_nil. by rewrite IH.
Qed.

Lemma comprehension_get (states : list GPIOState) d k :
  dict_get k (comprehension d states) =
    match last (filter (λ s, pin s = k) states) with
    | Some s => Some (state_dict s)
    | None => dict_get k d
    end.
Proof.
  revert d. induction states as [|s states IH]; intros d; [done|].
  cbn [foldl]. rewrite IH, dict_get_set, filter_cons.
  destruct (decide (pin s = k)) as [Heq|Hne].
  - rewrite last_cons, decide_True by done.
    by destruct (last (filter _ states)).
  - by rewrite decide_False by done.
Qed.

Lemma comprehension_entries (states : list GPIOState) :
  Forall (λ kv, ∃ s, s ∈ states ∧ kv = (pin s, state_dict s))
         (comprehension [] states).
Proof.
  assert (∀ (P : _ → Prop) d0,
    (∀ s, s ∈ states → P (pin s, state_dict s)) →
    Forall P d0 → Forall P (comprehension d0 states)) as Hgen.
  { intros P. induction states as [|s states IH]; intros d0 HP Hd0; [done|].
    cbn [foldl]. apply IH.
    - intros s' Hs'. apply HP. by right.
    - apply dict_set_Forall; [apply HP; left | done]. }
  apply Hgen; [|constructor]. intros s Hs. by exists s.
Qed.

Lemma AllGPIOStates_length (states : list GPIOState) :
  length (pins (AllGPIOStates_init states)) =
    length (first_occurrences (pin <$> states)).
Proof.
  rewrite <- AllGPIOStates_keys. unfold dict_keys. by rewrite length_fmap.
Qed.

Lemma AllGPIOStates_fewer (states : list GPIOState) :
  (length (pins (AllGPIOStates_init states)) < length states)%nat ↔
  ¬ NoDup (pin <$> states).
Proof.
  rewrite AllGPIOStates_length, <- first_occurrences_length_NoDup.
  pose proof (first_occurrences_length (pin <$> states)) as Hle.
  rewrite length_fmap in *. lia.
Qed.
End snapshot_container.

(** ** One pass over the pins *)

Lemma for_each_read_pin GPIO (ps : list Z) (w : World) :
  for_each ps (read_pin GPIO) w =
    let '(r, ws, n', evs) := scan_pins GPIO (reads w) ps in
    (r, after_scan w ws n' evs).
Proof.
  revert w. induction ps as [|p ps IH]; intros w.
  - destruct w as [[] ? ? ? ?]. unfold after_scan; cbn. by rewrite app_nil_r.
  - cbn [for_each scan_pins]. unfold bind at 1. unfold read_pin at 1.
    destruct GPIO as [hw|].
    + unfold bind at 1, GPIO_input. destruct (hw (reads w) p) as [v|] eqn:Hr.
      * unfold modify. rewrite IH. cbn [reads with_monitor].
        destruct (scan_pins (Some hw) (S (reads w)) ps) as [[[r ws] n'] evs].
        f_equal. unfold after_scan; cbn. by rewrite <- app_assoc.
      * by destruct w as [[] ? ? ? ?].
    + unfold bind at 1, ret, modify. rewrite IH. cbn [reads with_monitor].
      by destruct (scan_pins None (reads w) ps) as [[[r ws] n'] evs].
Qed.

(** One tick, in terms of the pass over the pins. *)
Lemma loop_body_scan GPIO (w : World) :
  loop_body GPIO w =
    let '(r, ws, n', evs) := scan_pins GPIO (reads w) (_pins (monitor w)) in
    match r with
    | Returns _ =>
        if Qle_bool 0 (_interval_s (monitor w))
        then (Returns tt, after_emit (after_scan w ws n' evs))
        else (Raises, after_update (after_scan w ws n' evs))
    | Raises => (Raises, after_scan w ws n' evs)
    end.
Proof.
  unfold loop_body. unfold bind at 1. rewrite for_each_read_pin.
  destruct (scan_pins GPIO (reads w) (_pins (monitor w))) as [[[r ws] n'] evs].
  destruct r as [[]|]; [|done].
  unfold bind, gets, emit, modify, time_sleep, after_emit, after_update; cbn.
  destruct (Qle_bool 0 (_interval_s (monitor w))); [|done].
  unfold emit, modify; cbn. by rewrite <- app_assoc.
Qed.

(** ** What [start] and [stop] do *)

Lemma for_each_GPIO_setup (ps : list Z) (w : World) :
  for_each ps GPIO_setup w =
    (Returns tt,
     {| monitor := monitor w; threads := threads w;
        channels := channels w ++ ps; reads := reads w;
        log := log w ++ (EvSetup <$> ps) |}).
Proof.
  revert w. induction ps as [|p ps IH]; intros w.
  - destruct w. cbn. by rewrite !app_nil_r.
  - cbn [for_each]. unfold bind at 1. unfold GPIO_setup at 1.
    unfold bind, modify, emit; cbn. rewrite IH; cbn.
    by rewrite <- !app_assoc.
Qed.

Lemma start_None (w : World) : start None w = (Returns tt, w).
Proof. done. Qed.

Lemma start_alive (hw : RPiGPIO) (w : World) :
  thread_alive w = true → start (Some hw) w = (Returns tt, w).
Proof. intros Ha. unfold start. by rewrite Ha. Qed.

Lemma start_spawn (hw : RPiGPIO) (w : World) :
  thread_alive w = false → start (Some hw) w = (Returns tt, started w).
Proof.
  intros Ha. unfold start. rewrite Ha.
  unfold bind at 1, emit at 1, modify at 1.
  unfold bind at 1. rewrite for_each_GPIO_setup.
  unfold bind, modify, spawn, emit, modify, started; cbn.
  by rewrite <- !app_assoc.
Qed.

Lemma stop_eq GPIO (exited : bool) (w : World) :
  stop GPIO exited w = (Returns tt, stopped GPIO exited w).
Proof.
  unfold stop, bind, modify, emit, GPIO_cleanup, bind, modify, emit, ret,
    thread_alive, thread_exit, stopped, thread_alive; cbn.
  destruct (_thread (monitor w)) as [t|]; cbn.
  - destruct (default false (threads w !! t)), exited, GPIO;
      unfold modify; cbn; by rewrite <- ?app_assoc, ?app_nil_r.
  - destruct GPIO; unfold modify; cbn; by rewrite <- ?app_assoc, ?app_nil_r.
Qed.

(** ** Facts about a pass over the pins *)

Section scan_facts.
Variable GPIO : option RPiGPIO.

Lemma scan_pins_snapshots n ps : snapshots (scan_pins GPIO n ps).2 = [].
Proof.
  revert n. induction ps as [|p ps IH]; intros n; [done|].
  cbn [scan_pins]. destruct GPIO as [hw|].
  - destruct (hw n p); [|done]. specialize (IH (S n)).
    by destruct (scan_pins _ (S n) ps) as [[[r ws] n'] evs].
  - specialize (IH n). by destruct (scan_pins _ n ps) as [[[r ws] n'] evs].
Qed.

Lemma scan_pins_writes n ps :
  (scan_pins GPIO n ps).1.1.2.*1 `prefix_of` ps ∧
  ((scan_pins GPIO n ps).1.1.1 = Returns tt →
   (scan_pins GPIO n ps).1.1.2.*1 = ps).
Proof.
  revert n. induction ps as [|p ps IH]; intros n; [done|].
  cbn [scan_pins]. destruct GPIO as [hw|].
  - destruct (hw n p).
    + destruct (IH (S n)) as [Hpre Heq].
      destruct (scan_pins _ (S n) ps) as [[[r ws] n'] evs]; cbn in *.
      split; [by apply prefix_cons | intros Hr; by rewrite Heq].
    + split; [apply prefix_nil | done].
  - destruct (IH n) as [Hpre Heq].
    destruct (scan_pins _ n ps) as [[[r ws] n'] evs]; cbn in *.
    split; [by apply prefix_cons | intros Hr; by rewrite Heq].
Qed.

End scan_facts.


Lemma scan_pins_returns (hw : RPiGPIO) n ps (vs : list raw) :
  imap (λ i p, hw (n + i)%nat p) ps = Returns <$> vs →
  scan_pins (Some hw) n ps =
    (Returns tt, zip ps (int <$> vs), (n + length ps)%nat,
     zip_with (λ p v, EvInput p (Returns v)) ps vs).
Proof.
  revert n vs. induction ps as [|p ps IH]; intros n vs Hvs.
  - cbn. by rewrite Nat.add_0_r.
  - destruct vs as [|v vs]; [done|]. cbn in Hvs.
    injection Hvs as Hv Hvs. rewrite Nat.add_0_r in Hv.
    cbn [scan_pins]. rewrite Hv, (IH (S n) vs).
    + cbn. do 2 f_equal. lia.
    + rewrite <- Hvs. apply imap_ext. intros i q _. cbn. f_equal. lia.
Qed.

Lemma scan_pins_raises (hw : RPiGPIO) n pre p post (vs : list raw) :
  imap (λ i q, hw (n + i)%nat q) pre = Returns <$> vs →
  hw (n + length pre)%nat p = Raises →
  scan_pins (Some hw) n (pre ++ p :: post) =
    (Raises, zip pre (int <$> vs), S (n + length pre),
     zip_with (λ q v, EvInput q (Returns v)) pre vs ++ [EvInput p Raises]).
Proof.
  revert n vs. induction pre as [|q pre IH]; intros n vs Hvs Hp.
  - cbn in *. rewrite Nat.add_0_r in *. by rewrite Hp.
  - destruct vs as [|v vs]; [done|]. cbn in Hvs.
    injection Hvs as Hv Hvs. rewrite Nat.add_0_r in Hv.
    cbn [app scan_pins]. rewrite Hv, (IH (S n) vs).
    + cbn. do 2 f_equal. lia.
    + rewrite <- Hvs. apply imap_ext. intros i q' _. cbn. f_equal. lia.
    + rewrite <- Hp. f_equal. cbn. lia.
Qed.

(** ** The cache after a pass *)

Lemma apply_writes_lookup (ws : list (Z * Z)) (c : gmap Z Z) (p : Z) :
  apply_writes ws c !! p =
    match last (filter (λ pv, pv.1 = p) ws) with
    | Some pv => Some pv.2
    | None => c !! p
    end.
Proof.
  revert c. induction ws as [|[q v] ws IH]; intros c; [done|].
  unfold apply_writes in *. cbn [foldl]. rewrite IH, filter_cons. cbn [fst snd].
  destruct (decide (q = p)) as [->|Hne].
  - rewrite last_cons. destruct (last (filter _ ws)); [done|].
    by rewrite lookup_insert_eq.
  - by rewrite lookup_insert_ne.
Qed.


(** ** Snapshots in the log *)

Lemma snapshots_app (l1 l2 : list event) :
  snapshots (l1 ++ l2) = snapshots l1 ++ snapshots l2.
Proof. apply omap_app. Qed.

Lemma snapshots_setup (ps : list Z) : snapshots (EvSetup <$> ps) = [].
Proof. induction ps as [|p ps IH]; [done | by cbn]. Qed.

Lemma snapshots_started (w : World) :
  snapshots (log (started w)) = snapshots (log w).
Proof.
  cbn. rewrite snapshots_app. cbn. rewrite snapshots_app, snapshots_setup.
  cbn. by rewrite app_nil_r.
Qed.

Lemma snapshots_stopped GPIO (exited : bool) (w : World) :
  snapshots (log (stopped GPIO exited w)) = snapshots (log w).
Proof.
  cbn. rewrite !snapshots_app.
  destruct (thread_alive w), GPIO; cbn; by rewrite ?app_nil_r.
Qed.

Lemma snapshots_after_scan (w : World) ws n' evs :
  snapshots evs = [] →
  snapshots (log (after_scan w ws n' evs)) = snapshots (log w).
Proof. intros Hevs. cbn. by rewrite snapshots_app, Hevs, app_nil_r. Qed.

Lemma snapshots_after_emit (w : World) :
  snapshots (log (after_emit w)) =
    snapshots (log w) ++ [AllGPIOStates_init (get_all_states (monitor w))].
Proof. cbn. by rewrite snapshots_app. Qed.

Lemma snapshots_after_update (w : World) :
  snapshots (log (after_update w)) =
    snapshots (log w) ++ [AllGPIOStates_init (get_all_states (monitor w))].
Proof. cbn. by rewrite snapshots_app. Qed.

Lemma scan_pins_snapshots_eq GPIO n ps r ws n' evs :
  scan_pins GPIO n ps = (r, ws, n', evs) → snapshots evs = [].
Proof. intros H. pose proof (scan_pins_snapshots GPIO n ps) as Hs. by rewrite H in Hs. Qed.

(** ** Every step is one of the cases *)

Section step_cases.
Variable GPIO : option RPiGPIO.

Lemma round_spec (t : nat) (w : World) :
  round_result GPIO t w (round GPIO t w).
Proof.
  unfold round.
  destruct (default false (threads w !! t)) eqn:Ha; [|by constructor].
  destruct (_stop (monitor w)) eqn:Hs; [by constructor|].
  rewrite loop_body_scan.
  destruct (scan_pins GPIO (reads w) (_pins (monitor w)))
    as [[[[[]|] ws] n'] evs] eqn:Hscan.
  - destruct (Qle_bool 0 (_interval_s (monitor w))) eqn:Hiv.
    + by apply round_tick.
    + by apply round_sleep_raise.
  - by apply round_raise.
Qed.

Lemma step_spec (w : World) (c : call) :
  step_result GPIO w (step GPIO w c).
Proof.
  destruct c as [[|exited]|t]; cbn [step].
  - destruct GPIO as [hw|] eqn:HG; [|constructor].
    destruct (thread_alive w) eqn:Ha.
    + rewrite start_alive by done. constructor.
    + rewrite start_spawn by done. by eapply step_started.
  - rewrite stop_eq. constructor.
  - apply step_round with t, round_spec.
Qed.

(** Invariants of the machine are shown step by step. *)
Lemma run_invariant (P : World → Prop) (cs : list call) (w : World) :
  (∀ w1 w2, P w1 → step_result GPIO w1 w2 → P w2) →
  P w → P (run GPIO cs w).
Proof.
  intros Hstep. revert w. induction cs as [|c cs IH]; intros w Hw; [done|].
  cbn [run foldl]. apply IH. eapply Hstep; [done | apply step_spec].
Qed.
End step_cases.

(** ** Invariants of the machine *)

Lemma lookup_insert_false (l : list bool) (t t' : nat) :
  <[t := false]> l !! t' = Some true → l !! t' = Some true.
Proof.
  intros H. apply list_lookup_insert_Some in H as [(_ & ? & _)|[_ ?]]; done.
Qed.

Section well_formed_steps.
Context (GPIO : option RPiGPIO) (ps : list Z) (lm : gmap Z string) (iv : Q).

Lemma well_formed_thread_exit t w :
  well_formed ps lm iv w → well_formed ps lm iv (thread_exit t w).
Proof.
  intros [? ? ? ? Ha]. split; try done.
  intros t' Ht'. apply Ha. by apply (lookup_insert_false _ t t').
Qed.

Lemma well_formed_after_scan w ws n' evs :
  snapshots evs = [] →
  well_formed ps lm iv w → well_formed ps lm iv (after_scan w ws n' evs).
Proof.
  intros Hevs [? ? ? ? Ha]. split; try done.
  by rewrite snapshots_after_scan.
Qed.

Lemma well_formed_after_emit w :
  well_formed ps lm iv w → well_formed ps lm iv (after_emit w).
Proof.
  intros [Hps ? ? Hsn Ha]. split; try done.
  rewrite snapshots_after_emit. apply Forall_app. split; [done|].
  constructor; [|constructor].
  by rewrite AllGPIOStates_keys, get_all_states_pins, Hps.
Qed.

Lemma well_formed_after_update w :
  well_formed ps lm iv w → well_formed ps lm iv (after_update w).
Proof.
  intros [Hps ? ? Hsn Ha]. split; try done.
  rewrite snapshots_after_update. apply Forall_app. split; [done|].
  constructor; [|constructor].
  by rewrite AllGPIOStates_keys, get_all_states_pins, Hps.
Qed.

Lemma well_formed_step w1 w2 :
  well_formed ps lm iv w1 → step_result GPIO w1 w2 → well_formed ps lm iv w2.
Proof.
  intros Hwf Hstep. destruct Hstep as [|hw HG Hna|exited|t w2 Hround].
  - done.
  - destruct Hwf as [? ? ? Hsn Ha]. split; try done.
    + by rewrite snapshots_started.
    + intros t Ht. cbn in *.
      destruct (decide (t < length (threads w1))%nat) as [Hlt|Hge].
      * rewrite lookup_app_l in Ht by done.
        unfold thread_alive in Hna. rewrite (Ha t Ht), Ht in Hna. done.
      * rewrite lookup_app_r in Ht by lia.
        destruct (t - length (threads w1))%nat as [|k] eqn:Hk; [|done].
        f_equal. lia.
  - destruct Hwf as [? ? ? Hsn Ha]. split; try done.
    + by rewrite snapshots_stopped.
    + intros t Ht. cbn in *. apply Ha.
      destruct (_thread (monitor w1)) as [t0|]; [|done].
      destruct (thread_alive w1 && exited); [|done].
      by apply (lookup_insert_false _ t0 t).
  - destruct Hround as [| | ws n' evs _ _ Hscan | ws n' evs _ _ Hscan _
                        | ws n' evs _ _ Hscan _].
    + done.
    + by apply well_formed_thread_exit.
    + apply well_formed_thread_exit, well_formed_after_scan; [|done].
      by eapply scan_pins_snapshots_eq.
    + apply well_formed_thread_exit, well_formed_after_update,
        well_formed_after_scan; [|done].
      by eapply scan_pins_snapshots_eq.
    + apply well_formed_after_emit, well_formed_after_scan; [|done].
      by eapply scan_pins_snapshots_eq.
Qed.

Lemma well_formed_init :
  well_formed ps lm iv (World_init (GPIOMonitor_init ps lm iv)).
Proof. by split. Qed.

Lemma well_formed_run cs :
  well_formed ps lm iv (run GPIO cs (World_init (GPIOMonitor_init ps lm iv))).
Proof.
  apply run_invariant; [apply well_formed_step | apply well_formed_init].
Qed.
End well_formed_steps.

(** At most one element of a list is [true] when all true positions agree. *)
Lemma at_most_one_true (l : list bool) :
  (∀ i j, l !! i = Some true → l !! j = Some true → i = j) →
  (length (filter (λ b, b = true) l) ≤ 1)%nat.
Proof.
  induction l as [|b l IH]; intros Hl; [cbn; lia|].
  destruct b.
  - rewrite filter_cons_True by done. cbn.
    assert (filter (λ b, b = true) l = []) as ->; [|cbn; lia].
    clear IH. induction l as [|b l IH]; [done|].
    destruct b.
    + specialize (Hl 0%nat 1%nat eq_refl eq_refl). done.
    + rewrite filter_cons_False by done. apply IH.
      intros [|i] [|j] Hi Hj; try done.
      * by specialize (Hl 0%nat (S (S j)) eq_refl Hj).
      * by specialize (Hl (S (S i)) 0%nat Hi eq_refl).
      * specialize (Hl (S (S i)) (S (S j)) Hi Hj). lia.
  - rewrite filter_cons_False by done. apply IH.
    intros i j Hi Hj. specialize (Hl (S i) (S j) Hi Hj). lia.
Qed.

Lemma well_formed_loop GPIO ps lm iv (n : nat) (w : World) :
  well_formed ps lm iv w → well_formed ps lm iv (_loop GPIO n w).2.
Proof.
  revert w. induction n as [|n IH]; intros w Hwf; [done|].
  cbn [_loop]. destruct (_stop (monitor w)); [done|].
  rewrite loop_body_scan.
  pose proof (scan_pins_snapshots GPIO (reads w) (_pins (monitor w))) as Hsn.
  destruct (scan_pins GPIO (reads w) (_pins (monitor w)))
    as [[[[[]|] ws] n'] evs]; cbn in Hsn.
  - destruct (Qle_bool 0 (_interval_s (monitor w))).
    + by apply IH, well_formed_after_emit, well_formed_after_scan.
    + by apply well_formed_after_update, well_formed_after_scan.
  - by apply well_formed_after_scan.
Qed.

Lemma covers_intro (ps : list Z) (s : AllGPIOStates) :
  dict_keys (pins s) = first_occurrences ps → covers ps s.
Proof.
  intros Hk. unfold covers. rewrite Hk.
  split; [apply first_occurrences_NoDup|].
  split; [apply first_occurrences_elem | done].
Qed.

(** ** Without the hardware module *)

Lemma idle_step ps lm iv w1 w2 :
  idle ps lm iv w1 → step_result None w1 w2 → idle ps lm iv w2.
Proof.
  intros [b ->] Hstep. destruct Hstep as [|hw HG _|exited|t w2 Hround].
  - by exists b.
  - done.
  - by exists true.
  - destruct Hround as [| Ha _ | ws n' evs Ha _ _ | ws n' evs Ha _ _ _
                        | ws n' evs Ha _ _ _];
      [by exists b | done..].
Qed.

Lemma idle_run ps lm iv cs :
  idle ps lm iv (run None cs (World_init (GPIOMonitor_init ps lm iv))).
Proof. apply run_invariant; [apply idle_step | by exists false]. Qed.

Lemma get_all_states_empty_cache (m : GPIOMonitor) :
  _last_values m = ∅ →
  get_all_states m = default_states (_pins m) (_label_map m).
Proof.
  intros Hc. rewrite get_all_states_fmap, Hc. unfold default_states.
  apply list_fmap_ext. intros i p _. unfold state_of, cache_get.
  by rewrite lookup_empty.
Qed.

(** ** Client calls leave the cache alone *)

Lemma client_step_cache GPIO (w : World) (c : client_call) :
  _last_values (monitor (step GPIO w (Client c))) = _last_values (monitor w).
Proof.
  destruct c as [|exited]; cbn [step].
  - destruct GPIO as [hw|]; [|done].
    destruct (thread_alive w) eqn:Ha.
    + by rewrite start_alive.
    + by rewrite start_spawn.
  - by rewrite stop_eq.
Qed.

Lemma client_run_cache GPIO (ccs : list client_call) (w : World) :
  _last_values (monitor (run GPIO (Client <$> ccs) w)) = _last_values (monitor w).
Proof.
  revert w. induction ccs as [|c ccs IH]; intros w; [done|].
  cbn [fmap list_fmap run foldl]. unfold run in IH. rewrite IH.
  apply client_step_cache.
Qed.

(** ** What is cached comes from the reads *)

Lemma scan_pins_stored GPIO n ps :
  Forall (λ pv, stored_by_read GPIO pv.1 pv.2) (scan_pins GPIO n ps).1.1.2.
Proof.
  revert n. induction ps as [|p ps IH]; intros n; [constructor|].
  cbn [scan_pins]. destruct GPIO as [hw|] eqn:HG.
  - destruct (hw n p) as [v|] eqn:Hr; [|constructor].
    specialize (IH (S n)).
    destruct (scan_pins _ (S n) ps) as [[[r ws] n'] evs]; cbn in *.
    constructor; [|done]. by exists n, v.
  - specialize (IH n).
    destruct (scan_pins _ n ps) as [[[r ws] n'] evs]; cbn in *.
    by constructor.
Qed.

Lemma apply_writes_Forall (P : Z → Z → Prop) (ws : list (Z * Z)) (c : gmap Z Z) :
  Forall (λ pv, P pv.1 pv.2) ws →
  map_Forall P c → map_Forall P (apply_writes ws c).
Proof.
  intros Hws. revert c. induction Hws as [|[q v] ws Hv Hws IH]; intros c Hc.
  - done.
  - unfold apply_writes in *. cbn [foldl]. apply IH.
    by apply map_Forall_insert_2.
Qed.

Lemma get_all_states_reported GPIO (m : GPIOMonitor) :
  map_Forall (stored_by_read GPIO) (_last_values m) →
  Forall (λ s, reported GPIO (pin s) (value s)) (get_all_states m).
Proof.
  intros Hc. rewrite get_all_states_fmap. apply Forall_fmap, Forall_forall.
  intros p _. cbn. unfold cache_get.
  destruct (_last_values m !! p) as [z|] eqn:Hz; cbn.
  - right. by apply (Hc p z).
  - by left.
Qed.

Lemma AllGPIOStates_reported GPIO (states : list GPIOState) :
  Forall (λ s, reported GPIO (pin s) (value s)) states →
  Forall (reported_entry GPIO) (pins (AllGPIOStates_init states)).
Proof.
  intros Hb. eapply Forall_impl; [apply comprehension_entries|].
  intros kv (s & Hs & ->). rewrite Forall_forall in Hb.
  exists (value s). split; [done | by apply Hb].
Qed.

Lemma from_reads_step GPIO w1 w2 :
  from_reads GPIO w1 → step_result GPIO w1 w2 → from_reads GPIO w2.
Proof.
  intros [Hc Hs] Hstep.
  assert (∀ ws n' evs r,
    scan_pins GPIO (reads w1) (_pins (monitor w1)) = (r, ws, n', evs) →
    from_reads GPIO (after_scan w1 ws n' evs)) as Hscan.
  { intros ws n' evs r Hscan. split.
    - cbn. apply apply_writes_Forall; [|done].
      pose proof (scan_pins_stored GPIO (reads w1) (_pins (monitor w1))) as H.
      by rewrite Hscan in H.
    - rewrite snapshots_after_scan; [done|]. by eapply scan_pins_snapshots_eq. }
  assert (∀ w, from_reads GPIO w →
    Forall (λ s, Forall (reported_entry GPIO) (pins s))
      (snapshots (log w) ++ [AllGPIOStates_init (get_all_states (monitor w))]))
    as Hemit.
  { intros w [Hc' Hs']. apply Forall_app. split; [done|].
    constructor; [|constructor].
    by apply AllGPIOStates_reported, get_all_states_reported. }
  destruct Hstep as [|hw HG Hna|exited|t w2 Hround].
  - done.
  - split; [done|]. by rewrite snapshots_started.
  - split; [done|]. by rewrite snapshots_stopped.
  - destruct Hround as [| | ws n' evs _ _ Hsc | ws n' evs _ _ Hsc _
                        | ws n' evs _ _ Hsc _].
    + done.
    + done.
    + by destruct (Hscan _ _ _ _ Hsc).
    + pose proof (Hscan _ _ _ _ Hsc) as Hfr. split; [apply Hfr|].
      change (log (thread_exit t ?w')) with (log w').
      rewrite snapshots_after_update. by apply Hemit.
    + pose proof (Hscan _ _ _ _ Hsc) as Hfr. split; [apply Hfr|].
      rewrite snapshots_after_emit. by apply Hemit.
Qed.

Lemma from_reads_run GPIO ps lm iv cs :
  from_reads GPIO (run GPIO cs (World_init (GPIOMonitor_init ps lm iv))).
Proof.
  apply run_invariant.
  - intros w1 w2. by apply from_reads_step.
  - split; [apply map_Forall_empty | constructor].
Qed.

Lemma int_raw_bit (v : raw) : raw_bit v → is_bit (int v).
Proof. intros [->|[->|[->| ->]]]; cbn; [left|right|left|right]; done. Qed.

Lemma stored_by_read_bit GPIO (p z : Z) :
  bit_reads GPIO → stored_by_read GPIO p z → is_bit z.
Proof.
  intros Hbit. destruct GPIO as [hw|]; cbn.
  - intros (n & v & Hv & ->). by apply int_raw_bit, (Hbit hw n p v).
  - intros ->. by left.
Qed.

Lemma reported_bit GPIO (p z : Z) :
  bit_reads GPIO → reported GPIO p z → is_bit z.
Proof.
  intros Hbit [->|Hz]; [by left | by eapply stored_by_read_bit].
Qed.

Lemma thread_alive_started (w : World) : thread_alive (started w) = true.
Proof.
  unfold thread_alive, started; cbn.
  by rewrite lookup_app_r, Nat.sub_diag by lia.
Qed.

Lemma start_start GPIO (w : World) :
  start GPIO (start GPIO w).2 = (Returns tt, (start GPIO w).2).
Proof.
  destruct GPIO as [hw|]; [|done]. destruct (thread_alive w) eqn:Ha.
  - rewrite (start_alive hw w Ha). cbn [snd]. by rewrite (start_alive hw w Ha).
  - rewrite (start_spawn hw w Ha). cbn [snd].
    by rewrite start_alive by apply thread_alive_started.
Qed.

Lemma thread_alive_start (hw : RPiGPIO) (w : World) :
  thread_alive (start (Some hw) w).2 = true.
Proof.
  destruct (thread_alive w) eqn:Ha.
  - by rewrite (start_alive hw w Ha).
  - rewrite (start_spawn hw w Ha). apply thread_alive_started.
Qed.

Lemma at_least_one_true (l : list bool) (t : nat) :
  l !! t = Some true → (1 ≤ length (filter (λ b, b = true) l))%nat.
Proof.
  intros Ht. apply list_elem_of_lookup_2 in Ht.
  assert (true ∈ filter (λ b, b = true) l) as Hin by by apply list_elem_of_filter.
  destruct (filter (λ b, b = true) l); [by apply elem_of_nil in Hin | cbn; lia].
Qed.

Lemma thread_alive_lookup (w : World) :
  thread_alive w = true → ∃ t, threads w !! t = Some true.
Proof.
  unfold thread_alive. destruct (_thread (monitor w)) as [t|]; [|done].
  destruct (threads w !! t) as [[]|] eqn:Ht; [|done..]. by exists t.
Qed.

Lemma round_snapshots_le GPIO (t : nat) (w : World) :
  (length (snapshots (log (round GPIO t w))) ≤ S (length (snapshots (log w))))%nat.
Proof.
  destruct (round_spec GPIO t w) as [| | ws n' evs _ _ Hsc | ws n' evs _ _ Hsc _
                                     | ws n' evs _ _ Hsc _].
  - lia.
  - change (log (thread_exit t w)) with (log w). lia.
  - change (log (thread_exit t ?w')) with (log w').
    rewrite snapshots_after_scan by by eapply scan_pins_snapshots_eq. lia.
  - change (log (thread_exit t ?w')) with (log w').
    rewrite snapshots_after_update, length_app.
    rewrite snapshots_after_scan by by eapply scan_pins_snapshots_eq. cbn. lia.
  - rewrite snapshots_after_emit, length_app.
    rewrite snapshots_after_scan by by eapply scan_pins_snapshots_eq. cbn. lia.
Qed.

(** ** The end-to-end examples of the specification *)

(** Pins 17 and 27, pin 17 labelled "button" and high, pin 27 low: after
    [start] and one tick the pull accessor reports both, and [stop] ends
    the thread and releases the pins. *)
Example button_is_reported :
  let w := run (Some hw_button) [Client Start; Round 0] (World_init demo_monitor) in
  get_all_states (monitor w) =
    [ {| pin := 17; value := 1; label := Some "button"%string |};
      {| pin := 27; value := 0; label := None |} ] ∧
  threads (stop (Some hw_button) true w).2 = [false] ∧
  channels (stop (Some hw_button) true w).2 = [].
Proof. vm_compute. repeat split. Qed.

(** Pin 5 without the hardware module: [start] returns and the pull
    accessor reports 0 at once. *)
Example pin_5_without_hardware :
  let w := run None [Client Start] (World_init (GPIOMonitor_init [5] ∅ (1 # 10))) in
  get_all_states (monitor w) = [ {| pin := 5; value := 0; label := None |} ].
Proof. done. Qed.

(** Pins 1, 2 and 3 with hardware: five rounds give five callbacks, each
    with all three pins. *)
Example five_rounds_five_snapshots :
  let w := run (Some hw_button) [Client Start; Round 0; Round 0; Round 0; Round 0; Round 0]
             (World_init (GPIOMonitor_init [1; 2; 3] ∅ (1 # 10))) in
  (λ s, dict_keys (pins s)) <$> snapshots (log w) = replicate 5 [1; 2; 3].
Proof. by vm_compute. Qed.

(** An interval of -1 second: the first tick hands its snapshot to the
    callback, then [time.sleep] raises and the sampling thread is over. *)
Example negative_interval_ends_the_thread :
  let w := run (Some hw_button) [Client Start; Round 0; Round 0]
             (World_init (GPIOMonitor_init [17] ∅ (-1))) in
  length (snapshots (log w)) = 1%nat ∧ threads w = [false] ∧
  (loop_body (Some hw_button) (World_init (GPIOMonitor_init [17] ∅ (-1)))).1
    = Raises.
Proof. vm_compute. repeat split. Qed.

(** ** A tick whose reads all return *)

Lemma loop_body_reads_return (hw : RPiGPIO) (w : World) (vs : list raw) :
  imap (λ i p, hw (reads w + i)%nat p) (_pins (monitor w)) = Returns <$> vs →
  loop_body (Some hw) w =
    let w1 := after_scan w (zip (_pins (monitor w)) (int <$> vs))
                (reads w + length (_pins (monitor w)))
                (zip_with (λ p v, EvInput p (Returns v)) (_pins (monitor w)) vs) in
    if Qle_bool 0 (_interval_s (monitor w))
    then (Returns tt, after_emit w1) else (Raises, after_update w1).
Proof.
  intros Hvs. rewrite loop_body_scan. by rewrite (scan_pins_returns _ _ _ vs).
Qed.


Lemma loop_body_raises (hw : RPiGPIO) (w : World) pre p post (vs : list raw) :
  _pins (monitor w) = pre ++ p :: post →
  imap (λ i q, hw (reads w + i)%nat q) pre = Returns <$> vs →
  hw (reads w + length pre)%nat p = Raises →
  loop_body (Some hw) w =
    (Raises,
     after_scan w (zip pre (int <$> vs)) (S (reads w + length pre))
       (zip_with (λ q v, EvInput q (Returns v)) pre vs ++ [EvInput p Raises])).
Proof.
  intros Hps Hvs Hp. rewrite loop_body_scan, Hps.
  by rewrite (scan_pins_raises _ _ _ _ _ vs).
Qed.


(** ** The cache under concurrent access *)

Lemma apply_writes_snoc ws pv c :
  apply_writes (ws ++ [pv]) c = <[pv.1 := pv.2]> (apply_writes ws c).
Proof. unfold apply_writes. by rewrite foldl_snoc. Qed.

Lemma interleave_reader_alone lm c ws ps acc rest :
  interleave lm (replicate (length ps) Reader ++ rest) c ws ps acc =
  interleave lm rest c ws [] (acc ++ (state_of c lm <$> ps)).
Proof.
  revert acc. induction ps as [|p ps IH]; intros acc; cbn.
  - by rewrite app_nil_r.
  - rewrite IH. by rewrite <- app_assoc.
Qed.

Lemma interleave_sampler_alone lm c ws ps acc k rest :
  interleave lm (replicate k Sampler ++ rest) c ws ps acc =
  interleave lm rest (apply_writes (take k ws) c) (drop k ws) ps acc.
Proof.
  revert c ws. induction k as [|k IH]; intros c ws; [done|].
  cbn [replicate app interleave]. destruct ws as [|pv ws].
  - rewrite IH. by rewrite take_nil, drop_nil.
  - by rewrite IH.
Qed.

Lemma interleave_seen lm sched ws0 c0 j ps acc :
  (j ≤ length ws0)%nat →
  ∃ new,
    (interleave lm sched (apply_writes (take j ws0) c0) (drop j ws0) ps acc).2
      = acc ++ new ∧
    (interleave lm sched (apply_writes (take j ws0) c0) (drop j ws0) ps acc).1.2
      = drop (length new) ps ∧
    Forall2 (seen_at lm ws0 c0) (take (length new) ps) new.
Proof.
  revert j ps acc. induction sched as [|[] sched IH]; intros j ps acc Hj.
  - exists []. cbn. rewrite app_nil_r. by repeat split.
  - cbn [interleave]. destruct (drop j ws0) as [|pv ws'] eqn:Hd.
    + rewrite <- Hd. by apply IH.
    + assert (ws0 !! j = Some pv) as Hlk.
      { rewrite <- (Nat.add_0_r j), <- lookup_drop. by rewrite Hd. }
      assert (ws' = drop (S j) ws0) as ->.
      { rewrite (drop_S _ _ _ Hlk) in Hd. by injection Hd. }
      rewrite <- apply_writes_snoc, <- (take_S_r _ _ _ Hlk).
      apply IH. by apply lookup_lt_Some in Hlk.
  - cbn [interleave]. destruct ps as [|p ps].
    + destruct (IH j [] acc Hj) as (new & H1 & H2 & H3).
      exists new. by rewrite H1, H2.
    + destruct (IH j ps (acc ++ [state_of (apply_writes (take j ws0) c0) lm p]) Hj)
        as (new & H1 & H2 & H3).
      exists (state_of (apply_writes (take j ws0) c0) lm p :: new).
      rewrite H1, H2, <- app_assoc. split; [done|]. split; [done|].
      cbn. constructor; [by exists j | done].
Qed.

Lemma interleave_reader_done lm sched c ws acc :
  (interleave lm sched c ws [] acc).2 = acc.
Proof.
  revert c ws. induction sched as [|[] sched IH]; intros c ws; [done| |].
  - cbn [interleave]. destruct ws; apply IH.
  - apply IH.
Qed.

Lemma last_filter_states (c : gmap Z Z) (lm : gmap Z string) (ps : list Z) (p : Z) :
  last (filter (λ s, pin s = p) (state_of c lm <$> ps)) =
    if decide (p ∈ ps) then Some (state_of c lm p) else None.
Proof.
  induction ps as [|q ps IH]; [done|].
  rewrite fmap_cons, filter_cons. cbn [pin state_of].
  destruct (decide (q = p)) as [->|Hne].
  - rewrite last_cons, IH, (decide_True (P := p ∈ p :: ps)) by left.
    by destruct (decide (p ∈ ps)).
  - rewrite IH. destruct (decide (p ∈ ps)) as [Hin|Hnin].
    + by rewrite decide_True by by right.
    + rewrite decide_False; [done|].
      intros [?|?]%elem_of_cons; congruence.
Qed.

Lemma snapshot_lookup (c : gmap Z Z) (lm : gmap Z string) (ps : list Z) (p : Z) :
  dict_get p (pins (AllGPIOStates_init (state_of c lm <$> ps))) =
    if decide (p ∈ ps) then Some (state_dict (state_of c lm p)) else None.
Proof.
  cbn [AllGPIOStates_init pins]. rewrite comprehension_get, last_filter_states.
  by destruct (decide (p ∈ ps)).
Qed.

Lemma dict_set_fresh {V : Type} (k : Z) (v : V) (d : list (Z * V)) :
  k ∉ dict_keys d → dict_set k v d = d ++ [(k, v)].
Proof.
  unfold dict_keys. induction d as [|[k' v'] d IH]; intros Hk; [done|].
  rewrite fmap_cons in Hk. apply not_elem_of_cons in Hk as [Hne Hk].
  cbn [dict_set fst]. rewrite decide_False by done. cbn. by rewrite IH.
Qed.

Lemma comprehension_distinct (states : list GPIOState) d :
  NoDup (pin <$> states) →
  (∀ s, s ∈ states → pin s ∉ dict_keys d) →
  foldl (λ d s, dict_set (pin s) (state_dict s) d) d states =
    d ++ ((λ s, (pin s, state_dict s)) <$> states).
Proof.
  revert d. induction states as [|s states IH]; intros d Hnd Hd.
  - by rewrite app_nil_r.
  - rewrite fmap_cons in Hnd. apply NoDup_cons in Hnd as [Hs Hnd].
    cbn [foldl]. rewrite dict_set_fresh by (apply Hd; left).
    rewrite IH; [by rewrite <- app_assoc | done |].
    intros s' Hs'. unfold dict_keys. rewrite fmap_app, elem_of_app.
    intros [Hin|Hin].
    + apply (Hd s'); [by right | done].
    + cbn in Hin. apply list_elem_of_singleton in Hin.
      apply Hs. rewrite <- Hin. by apply list_elem_of_fmap_2.
Qed.

Lemma states_after_writes (lm : gmap Z string) (ps vs : list Z) (c : gmap Z Z) :
  NoDup ps → length vs = length ps →
  state_of (apply_writes (zip ps vs) c) lm <$> ps =
    zip_with (λ p v, {| pin := p; value := v; label := lm !! p |}) ps vs.
Proof.
  intros Hnd. revert vs c. induction Hnd as [|p ps Hp Hnd IH]; intros vs c Hlen.
  - done.
  - destruct vs as [|v vs]; [done|]. cbn in Hlen.
    cbn [zip zip_with fmap list_fmap]. f_equal.
    + unfold state_of, cache_get. f_equal.
      change (apply_writes ((p, v) :: zip_with pair ps vs) c)
        with (apply_writes (zip ps vs) (<[p := v]> c)).
      rewrite apply_writes_lookup.
      destruct (last _) as [qv|] eqn:Hl.
      * apply last_Some_elem_of, list_elem_of_filter in Hl as [Hqv Hin].
        destruct qv as [q u]. apply elem_of_zip_l in Hin. cbn in Hqv. by subst.
      * by rewrite lookup_insert_eq.
    + apply (IH vs (<[p := v]> c)). lia.
Qed.




(** * The claims *)

(** C1. For every configuration (any pin list, any label map) and with or
    without the hardware module, in every world the machine can reach the
    list returned by [get_all_states] carries exactly the configured pins,
    one state per element of the configured list and in its order, and every
    snapshot handed to the callback, by the sampling thread or by [_loop]
    run directly for any number of rounds, has exactly the configured pin
    identifiers as its keys, each once. *)
Theorem snapshots_cover_configured_pins
    (GPIO : option RPiGPIO) (ps : list Z) (lm : gmap Z string) (iv : Q)
    (cs : list call) (n : nat) :
  let w := run GPIO cs (World_init (GPIOMonitor_init ps lm iv)) in
  pin <$> get_all_states (monitor w) = ps ∧
  Forall (covers ps) (snapshots (log w)) ∧
  Forall (covers ps) (snapshots (log (_loop GPIO n w).2)).
Proof.
  intros w. pose proof (well_formed_run GPIO ps lm iv cs) as Hwf. fold w in Hwf.
  pose proof (well_formed_loop GPIO ps lm iv n w Hwf) as Hloop.
  split; [|split].
  - rewrite get_all_states_pins. apply Hwf.
  - eapply Forall_impl; [apply Hwf | apply covers_intro].
  - eapply Forall_impl; [apply Hloop | apply covers_intro].
Qed.

(** C2, as the code has it. [_loop] catches nothing: when [GPIO.input]
    raises for a pin, the tick stops there. The pins before it in the list
    have their new values in the cache, no entry of another pin is touched
    (the failing pin is not set to 0), no snapshot is handed to the callback
    and there is no sleep; the exception ends the sampling thread, which
    does nothing from then on. *)
Theorem read_failure_ends_tick_and_thread
    (hw : RPiGPIO) (w : World) (pre : list Z) (p : Z) (post : list Z)
    (vs : list raw) (t : nat) :
  _pins (monitor w) = pre ++ p :: post →
  imap (λ i q, hw (reads w + i)%nat q) pre = Returns <$> vs →
  hw (reads w + length pre)%nat p = Raises →
  threads w !! t = Some true →
  _stop (monitor w) = false →
  ∃ w', loop_body (Some hw) w = (Raises, w') ∧
        log w' = log w ++ zip_with (λ q v, EvInput q (Returns v)) pre vs
                   ++ [EvInput p Raises] ∧
        snapshots (log w') = snapshots (log w) ∧
        _last_values (monitor w') =
          apply_writes (zip pre (int <$> vs)) (_last_values (monitor w)) ∧
        (∀ q, q ∉ pre →
              _last_values (monitor w') !! q = _last_values (monitor w) !! q) ∧
        round (Some hw) t w = thread_exit t w' ∧
        threads (round (Some hw) t w) !! t = Some false ∧
        round (Some hw) t (round (Some hw) t w) = round (Some hw) t w.
Proof.
  intros Hps Hvs Hp Ht Hs. eexists.
  split; [by apply (loop_body_raises hw w pre p post vs)|].
  split; [done|]. split.
  { rewrite snapshots_after_scan; [done|].
    eapply scan_pins_snapshots_eq.
    by apply (scan_pins_raises hw (reads w) pre p post vs). }
  split; [done|]. split.
  { intros q Hq. cbn. rewrite apply_writes_lookup.
    destruct (last _) as [qv|] eqn:Hl; [|done].
    apply last_Some_elem_of, list_elem_of_filter in Hl as [Hqv Hin].
    destruct qv as [q' v]. apply elem_of_zip_l in Hin. cbn in Hqv. by subst. }
  assert (round (Some hw) t w = thread_exit t
            (after_scan w (zip pre (int <$> vs)) (S (reads w + length pre))
               (zip_with (λ q v, EvInput q (Returns v)) pre vs
                  ++ [EvInput p Raises]))) as Hround.
  { unfold round. rewrite Ht, Hs. cbn [default from_option id].
    by rewrite (loop_body_raises hw w pre p post vs). }
  rewrite Hround. split; [done|].
  assert (threads (thread_exit t (after_scan w (zip pre (int <$> vs))
            (S (reads w + length pre))
            (zip_with (λ q v, EvInput q (Returns v)) pre vs
               ++ [EvInput p Raises]))) !! t = Some false) as Hdead.
  { cbn. apply list_lookup_insert_eq. by apply lookup_lt_Some in Ht. }
  split; [done|]. unfold round at 1. by rewrite Hdead.
Qed.

Lemma read_failure_ends_tick_and_thread_witness :
  let w := run (Some hw_breaks) [Client Start; Round 0] (World_init demo_monitor) in
  ∃ w', loop_body (Some hw_breaks) w = (Raises, w') ∧
        threads (round (Some hw_breaks) 0 w) !! 0%nat = Some false.
Proof.
  intros w.
  destruct (read_failure_ends_tick_and_thread hw_breaks w [17] 27 [] [RawInt 1] 0%nat)
    as (w' & H1 & _ & _ & _ & _ & _ & H7 & _); [reflexivity..|].
  exists w'. split; assumption.
Defined.

(** C2, the claim refuted: pins 17 and 27 read 1 in a first tick; in the
    second tick the read of pin 27 raises. The tick does not complete, no
    further snapshot reaches the callback, pin 27 keeps its value 1 instead
    of 0, and the sampling thread is dead: more rounds change nothing. *)
Lemma read_failure_is_not_absorbed :
  let GPIO := Some hw_breaks in
  let w1 := run GPIO [Client Start; Round 0] (World_init demo_monitor) in
  let w2 := run GPIO [Round 0] w1 in
  (loop_body GPIO w1).1 = Raises ∧
  length (snapshots (log w1)) = 1%nat ∧
  length (snapshots (log w2)) = 1%nat ∧
  get_all_states (monitor w2) =
    [ {| pin := 17; value := 1; label := Some "button"%string |};
      {| pin := 27; value := 1; label := None |} ] ∧
  threads w2 = [false] ∧
  run GPIO [Round 0; Round 0; Round 0] w2 = w2.
Proof. vm_compute. repeat split. Qed.

(** C3, as the code has it. [int()] leaves an integer as it is and turns
    [True] into 1 and [False] into 0. In every world the machine can reach,
    every value in the cache is [int] of what [GPIO.input] returned for
    that pin at some read (or the 0 taken without the hardware module), and
    every value in the lists of [get_all_states] and in the snapshots
    handed to the callback is such a value or the 0 of a pin not read yet.
    So when the hardware module answers only 0, 1, [False] or [True], all
    these values are 0 or 1. *)
Theorem values_are_bits_when_the_reads_are
    (GPIO : option RPiGPIO) (ps : list Z) (lm : gmap Z string) (iv : Q)
    (cs : list call) (z : Z) (b : bool) :
  let w := run GPIO cs (World_init (GPIOMonitor_init ps lm iv)) in
  int (RawInt z) = z ∧
  int (RawBool b) = (if b then 1 else 0) ∧
  map_Forall (stored_by_read GPIO) (_last_values (monitor w)) ∧
  Forall (λ s, reported GPIO (pin s) (value s)) (get_all_states (monitor w)) ∧
  Forall (λ s, Forall (reported_entry GPIO) (pins s)) (snapshots (log w)) ∧
  (bit_reads GPIO →
   map_Forall (λ _ v, v = 0 ∨ v = 1) (_last_values (monitor w)) ∧
   Forall (λ s, value s = 0 ∨ value s = 1) (get_all_states (monitor w)) ∧
   Forall (λ s, Forall bit_entry (pins s)) (snapshots (log w))).
Proof.
  intros w. destruct (from_reads_run GPIO ps lm iv cs) as [Hc Hs]. fold w in Hc, Hs.
  pose proof (get_all_states_reported GPIO (monitor w) Hc) as Hget.
  split; [done|]. split; [done|]. split; [done|]. split; [done|].
  split; [done|]. intros Hbit. split; [|split].
  - intros p v Hv. by apply (stored_by_read_bit GPIO p), (Hc p v).
  - eapply Forall_impl; [exact Hget|]. intros s. by apply reported_bit.
  - eapply Forall_impl; [exact Hs|]. intros s Hent.
    eapply Forall_impl; [exact Hent|]. intros kv (v & Hv & Hrep).
    unfold bit_entry. rewrite Hv.
    destruct (reported_bit GPIO kv.1 v Hbit Hrep) as [-> | ->]; [by left | by right].
Qed.

Lemma values_are_bits_when_the_reads_are_witness :
  let w := run (Some hw_bool) [Client Start; Round 0] (World_init demo_monitor) in
  Forall (λ s, value s = 0 ∨ value s = 1) (get_all_states (monitor w)) ∧
  value <$> get_all_states (monitor w) = [1; 0].
Proof.
  intros w. split; [|reflexivity].
  refine (proj1 (proj2 (proj2 (proj2 (proj2 (proj2 (proj2
    (values_are_bits_when_the_reads_are (Some hw_bool)
       [17; 27] {[ 17 := "button"%string ]} (1 # 100) [Client Start; Round 0]
       0 true))))) _))).
  intros hw n p v [= <-]. unfold hw_bool. intros [= <-].
  destruct (bool_decide (p = 17)); [by do 3 right | right; right; by left].
Defined.

(** C3, the claim refuted: a hardware module that answers 5. The cache,
    the list of [get_all_states] and the snapshot all carry 5. *)
Lemma raw_five_is_cached_and_reported :
  let w := run (Some hw_five) [Client Start; Round 0] (World_init demo_monitor) in
  _last_values (monitor w) !! 17 = Some 5 ∧
  value <$> get_all_states (monitor w) = [5; 5] ∧
  (λ s, snapshot_value s 17) <$> snapshots (log w) = [Some (PyInt 5)].
Proof. vm_compute. repeat split. Qed.

(** C4. Without the hardware module [start] returns, leaving the monitor
    as it was; and as long as no tick has taken place (whatever is called
    without the hardware module, or any calls of [start] and [stop] before
    the first round of the loop with it), [get_all_states] returns every
    configured pin with value 0 and the label the label map has for it,
    [None] when it has none. *)
Theorem degraded_start_and_default_states
    (GPIO : option RPiGPIO) (ps : list Z) (lm : gmap Z string) (iv : Q)
    (cs : list call) (ccs : list client_call) (w : World) :
  let w0 := World_init (GPIOMonitor_init ps lm iv) in
  start None w = (Returns tt, w) ∧
  get_all_states (monitor (run None cs w0)) = default_states ps lm ∧
  get_all_states (monitor (run GPIO (Client <$> ccs) w0)) = default_states ps lm.
Proof.
  intros w0. subst w0. split; [done|]. split.
  - destruct (idle_run ps lm iv cs) as [b ->]. by apply get_all_states_empty_cache.
  - pose proof (well_formed_run GPIO ps lm iv (Client <$> ccs)) as [Hps Hlm _ _ _].
    rewrite get_all_states_empty_cache by by rewrite client_run_cache.
    by rewrite Hps, Hlm.
Qed.

(** C5, as the code has it. Without the hardware module [start] returns at
    once and creates no thread: whatever is called afterwards, the callback
    is never invoked (nothing at all is logged, no thread exists), and
    [get_all_states] reports every configured pin with value 0. *)
Theorem no_callback_without_hardware
    (ps : list Z) (lm : gmap Z string) (iv : Q) (cs : list call) :
  let w := run None cs (World_init (GPIOMonitor_init ps lm iv)) in
  snapshots (log w) = [] ∧ log w = [] ∧ threads w = [] ∧
  get_all_states (monitor w) = default_states ps lm.
Proof.
  intros w. subst w. destruct (idle_run ps lm iv cs) as [b ->].
  repeat split. by apply get_all_states_empty_cache.
Qed.

(** C5, the claim refuted: on a platform without the hardware module, a
    monitor of pin 5 is started and its would-be sampling thread is given
    three rounds: no snapshot reaches the callback and there is no thread. *)
Lemma no_stream_without_hardware :
  let w := run None [Client Start; Round 0; Round 0; Round 0]
             (World_init (GPIOMonitor_init [5] ∅ (1 # 10))) in
  snapshots (log w) = [] ∧ threads w = [].
Proof. done. Qed.

(** C6. In every world the machine can reach: a second [start] right after
    a [start] returns and changes nothing, and leaves exactly one thread
    alive (none without the hardware module); at most one thread is ever
    alive; a round of the loop hands at most one more snapshot to the
    callback; and [stop] returns, called once, called twice in a row, or
    called on a monitor that was never started. *)
Theorem lifecycle_is_idempotent
    (GPIO : option RPiGPIO) (ps : list Z) (lm : gmap Z string) (iv : Q)
    (cs : list call) (e1 e2 : bool) (t : nat) :
  let w0 := World_init (GPIOMonitor_init ps lm iv) in
  let w := run GPIO cs w0 in
  let alive w' := length (filter (λ b, b = true) (threads w')) in
  start GPIO (start GPIO w).2 = (Returns tt, (start GPIO w).2) ∧
  alive (start GPIO (start GPIO w).2).2
    = match GPIO with Some _ => 1%nat | None => 0%nat end ∧
  (alive w ≤ 1)%nat ∧
  (length (snapshots (log (round GPIO t w))) ≤ S (length (snapshots (log w))))%nat ∧
  (stop GPIO e1 w).1 = Returns tt ∧
  (stop GPIO e2 (stop GPIO e1 w).2).1 = Returns tt ∧
  (stop GPIO e1 w0).1 = Returns tt.
Proof.
  intros w0 w alive.
  assert (∀ cs', alive (run GPIO cs' w0) ≤ 1)%nat as Hone.
  { intros cs'. apply at_most_one_true. intros i j Hi Hj.
    pose proof (well_formed_run GPIO ps lm iv cs') as [_ _ _ _ Ha].
    fold w0 in Ha. pose proof (Ha i Hi) as H1. pose proof (Ha j Hj) as H2.
    congruence. }
  split; [apply start_start|]. split; [|split; [apply Hone|]].
  - rewrite start_start. cbn [snd]. destruct GPIO as [hw|].
    + apply Nat.le_antisymm.
      * replace (start (Some hw) w).2
          with (run (Some hw) (cs ++ [Client Start]) w0); [apply Hone|].
        unfold run. by rewrite foldl_app.
      * destruct (thread_alive_lookup _ (thread_alive_start hw w)) as [t' Ht'].
        by apply (at_least_one_true _ t').
    + subst alive w w0. cbn [start ret snd].
      by destruct (idle_run ps lm iv cs) as [b ->].
  - split; [apply round_snapshots_le|]. by rewrite !stop_eq.
Qed.




(** C9, as the code has it. A tick changes nothing of the monitor but the
    cache, and no call of [start] or [stop] changes the cache; the cache is
    read and written without a lock. A pass of the sampling thread makes its
    assignments one pin at a time, [get_all_states] reads one pin at a
    time, and the two may alternate in any way: the caller gets one state
    per configured pin, in order, each with the value the cache gave for
    that pin at some moment of the pass; and it gets a copy of the cache as
    it was at one moment when no assignment falls between its reads. *)
Theorem unlocked_reader_sees_each_pin_at_some_moment
    (GPIO : option RPiGPIO) (w : World) (c : client_call)
    (sched rest : list turn) (k : nat) :
  let m := monitor w in
  let ws := (scan_pins GPIO (reads w) (_pins m)).1.1.2 in
  let r := interleave (_label_map m) sched (_last_values m) ws (_pins m) [] in
  monitor (loop_body GPIO w).2 = set_cache (apply_writes ws (_last_values m)) m ∧
  _last_values (monitor (step GPIO w (Client c))) = _last_values m ∧
  Forall2 (seen_at (_label_map m) ws (_last_values m))
          (take (length r.2) (_pins m)) r.2 ∧
  r.1.2 = drop (length r.2) (_pins m) ∧
  (interleave (_label_map m)
     (replicate k Sampler ++ replicate (length (_pins m)) Reader ++ rest)
     (_last_values m) ws (_pins m) []).2
    = get_all_states (set_cache (apply_writes (take k ws) (_last_values m)) m).
Proof.
  intros m ws r. split; [|split; [|split; [|split]]].
  - rewrite loop_body_scan. subst ws m.
    destruct (scan_pins GPIO (reads w) (_pins (monitor w)))
      as [[[[[]|] ?] ?] ?]; [|done].
    by destruct (Qle_bool 0 (_interval_s (monitor w))).
  - apply client_step_cache.
  - destruct (interleave_seen (_label_map m) sched ws (_last_values m) 0 (_pins m) [])
      as (new & H1 & H2 & H3); [lia|].
    rewrite take_0, drop_0 in *. subst r. cbn in H1. by rewrite H1.
  - destruct (interleave_seen (_label_map m) sched ws (_last_values m) 0 (_pins m) [])
      as (new & H1 & H2 & H3); [lia|].
    rewrite take_0, drop_0 in *. subst r. cbn in H1. by rewrite H1.
  - rewrite interleave_sampler_alone, interleave_reader_alone,
      interleave_reader_done.
    by rewrite get_all_states_fmap.
Qed.

(** C9, the claim refuted: after a tick that read 0 on pins 17 and 27, the
    next pass reads 1 on both. A caller of [get_all_states] that reads pin
    17 before the two assignments and pin 27 after them gets 0 and 1: a list
    the cache never held, neither before the pass, nor between its two
    assignments, nor after it. *)
Lemma reader_sees_a_mix_of_two_passes :
  let w := run (Some hw_rising) [Client Start; Round 0] (World_init demo_monitor) in
  let m := monitor w in
  let ws := (scan_pins (Some hw_rising) (reads w) (_pins m)).1.1.2 in
  let seen := (interleave (_label_map m) [Reader; Sampler; Sampler; Reader]
                 (_last_values m) ws (_pins m) []).2 in
  seen = [ {| pin := 17; value := 0; label := Some "button"%string |};
           {| pin := 27; value := 1; label := None |} ] ∧
  ¬ ∃ k, seen = get_all_states
                  (set_cache (apply_writes (take k ws) (_last_values m)) m).
Proof.
  split; [by vm_compute|].
  intros [k Hk]. destruct k as [|[|[|k]]]; vm_compute in Hk; discriminate.
Qed.

(** C10. The container built from a list of states maps each state's pin
    to a dictionary with exactly the fields pin, value and label, whose pin
    field is the key and whose three fields are the pin, the value and the
    label of a state of the list; it has one entry per distinct pin, and
    that entry carries the pin, value and label of the last state in the
    list with that pin; and it is shorter than the list, and so than what
    [get_all_states] returned, exactly when a pin occurs twice. *)
Theorem AllGPIOStates_one_entry_per_distinct_pin
    (states : list GPIOState) (m : GPIOMonitor) :
  let d := pins (AllGPIOStates_init states) in
  let record (s : GPIOState) :=
    [ ("pin"%string, PyInt (pin s)); ("value"%string, PyInt (value s));
      ("label"%string,
       match label s with Some l => PyStr l | None => PyNone end) ] in
  Forall (λ kv, dict_keys kv.2 = ["pin"; "value"; "label"]%string ∧
                dict_get "pin"%string kv.2 = Some (PyInt kv.1) ∧
                ∃ s, s ∈ states ∧ pin s = kv.1 ∧ kv.2 = record s) d ∧
  NoDup (dict_keys d) ∧
  (∀ k, k ∈ dict_keys d ↔ k ∈ pin <$> states) ∧
  (∀ k, dict_get k d =
        state_dict <$> last (filter (λ s, pin s = k) states)) ∧
  (∀ k, dict_get k d = record <$> last (filter (λ s, pin s = k) states)) ∧
  (∀ k, dict_get k d ≫= dict_get "value"%string =
        (λ s, PyInt (value s)) <$> last (filter (λ s, pin s = k) states)) ∧
  (∀ k, dict_get k d ≫= dict_get "label"%string =
        (λ s, match label s with Some l => PyStr l | None => PyNone end)
          <$> last (filter (λ s, pin s = k) states)) ∧
  ((length d < length states)%nat ↔ ¬ NoDup (pin <$> states)) ∧
  ((length (pins (AllGPIOStates_init (get_all_states m)))
    < length (get_all_states m))%nat ↔ ¬ NoDup (_pins m)).
Proof.
  intros d record. subst d.
  assert (∀ k, dict_get k (pins (AllGPIOStates_init states)) =
               record <$> last (filter (λ s, pin s = k) states)) as Hget.
  { intros k. cbn [AllGPIOStates_init pins]. rewrite comprehension_get.
    destruct (last (filter _ states)) as [[p v []]|]; done. }
  split; [|split; [|split; [|split; [|split; [|split; [|split; [|split]]]]]]].
  - eapply Forall_impl; [apply comprehension_entries|].
    intros kv (s & Hs & ->). split; [done|]. split; [done|].
    exists s. split; [done|]. split; [done|]. by destruct s as [p v []].
  - rewrite AllGPIOStates_keys. apply first_occurrences_NoDup.
  - intros k. rewrite AllGPIOStates_keys. apply first_occurrences_elem.
  - intros k. cbn [AllGPIOStates_init pins]. rewrite comprehension_get.
    by destruct (last (filter _ states)).
  - exact Hget.
  - intros k. rewrite Hget. by destruct (last (filter _ states)).
  - intros k. rewrite Hget. by destruct (last (filter _ states)).
  - apply AllGPIOStates_fewer.
  - rewrite AllGPIOStates_fewer. by rewrite get_all_states_pins.
Qed.

(** * Further properties of the code *)

(** ** The container of the pull accessor's list *)

(** X1. The snapshot built from the list of [get_all_states] and that list
    agree: looked up by pin, the snapshot gives for every configured pin
    the dictionary of its pin, the value the cache gives for it (0 when it
    has no entry) and the label of the label map ([None] when it has none),
    and it has no entry for any other pin. *)
Theorem snapshot_agrees_with_pull (m : GPIOMonitor) (p : Z) :
  let s := AllGPIOStates_init (get_all_states m) in
  dict_get p (pins s) =
    (if decide (p ∈ _pins m)
     then Some [ ("pin"%string, PyInt p);
                 ("value"%string, PyInt (cache_get (_last_values m) p));
                 ("label"%string, py_optional_str (_label_map m !! p)) ]
     else None) ∧
  snapshot_value s p =
    (if decide (p ∈ _pins m)
     then Some (PyInt (cache_get (_last_values m) p)) else None).
Proof.
  intros s. subst s. unfold snapshot_value.
  rewrite get_all_states_fmap, snapshot_lookup.
  by destruct (decide (p ∈ _pins m)).
Qed.

(** X2. When no pin is configured twice, the dictionary [to_dict] returns
    for the snapshot of [get_all_states] lists the pins in the configured
    order, one entry per state of the list. *)
Theorem distinct_pins_keep_configured_order (m : GPIOMonitor) :
  NoDup (_pins m) →
  to_dict (AllGPIOStates_init (get_all_states m)) =
    (λ s, (pin s, state_dict s)) <$> get_all_states m ∧
  dict_keys (to_dict (AllGPIOStates_init (get_all_states m))) = _pins m.
Proof.
  intros Hnd. split.
  - unfold to_dict. cbn [AllGPIOStates_init pins].
    rewrite comprehension_distinct; [done | by rewrite get_all_states_pins |].
    intros s _. apply not_elem_of_nil.
  - unfold to_dict. rewrite AllGPIOStates_keys, get_all_states_pins.
    by apply first_occurrences_id.
Qed.

Lemma distinct_pins_keep_configured_order_witness :
  dict_keys (to_dict (AllGPIOStates_init (get_all_states demo_monitor))) = [17; 27].
Proof.
  refine (proj2 (distinct_pins_keep_configured_order demo_monitor _)).
  apply NoDup_cons. split; [by intros ?%list_elem_of_singleton|].
  apply NoDup_singleton.
Defined.

(** X3. When no pin is configured twice, after a tick whose reads return
    [get_all_states] reports for every pin exactly [int] of what was read
    for it in that tick, with its label, and the last snapshot handed to
    the callback is the container of that same list. *)
Theorem tick_reports_what_was_read (hw : RPiGPIO) (w : World) (vs : list raw) :
  NoDup (_pins (monitor w)) →
  imap (λ i p, hw (reads w + i)%nat p) (_pins (monitor w)) = Returns <$> vs →
  let w' := (loop_body (Some hw) w).2 in
  get_all_states (monitor w') =
    zip_with (λ p v, {| pin := p; value := int v;
                        label := _label_map (monitor w) !! p |})
             (_pins (monitor w)) vs ∧
  last (snapshots (log w')) =
    Some (AllGPIOStates_init (get_all_states (monitor w'))).
Proof.
  intros Hnd Hvs w'. subst w'. rewrite (loop_body_reads_return hw w vs Hvs).
  cbn zeta.
  assert (length (int <$> vs) = length (_pins (monitor w))) as Hlen.
  { rewrite length_fmap. apply (f_equal length) in Hvs.
    by rewrite length_imap, length_fmap in Hvs. }
  destruct (Qle_bool 0 (_interval_s (monitor w))); cbn [snd]; split.
  - rewrite get_all_states_fmap. cbn.
    by rewrite states_after_writes, zip_with_fmap_r.
  - rewrite snapshots_after_emit. apply last_snoc.
  - rewrite get_all_states_fmap. cbn.
    by rewrite states_after_writes, zip_with_fmap_r.
  - rewrite snapshots_after_update. apply last_snoc.
Qed.

Lemma tick_reports_what_was_read_witness :
  let w := run (Some hw_button) [Client Start] (World_init demo_monitor) in
  get_all_states (monitor (loop_body (Some hw_button) w).2) =
    [ {| pin := 17; value := 1; label := Some "button"%string |};
      {| pin := 27; value := 0; label := None |} ].
Proof.
  intros w.
  refine (proj1 (tick_reports_what_was_read hw_button w [RawInt 1; RawInt 0] _ _)).
  - apply NoDup_cons. split; [by intros ?%list_elem_of_singleton|].
    apply NoDup_singleton.
  - reflexivity.
Defined.

(** ** More invariants of the machine *)

Lemma apply_writes_is_Some (ws : list (Z * Z)) (c : gmap Z Z) (p : Z) :
  is_Some (apply_writes ws c !! p) ↔ p ∈ ws.*1 ∨ is_Some (c !! p).
Proof.
  rewrite apply_writes_lookup.
  destruct (last (filter (λ pv, pv.1 = p) ws)) as [pv|] eqn:Hl.
  - apply last_Some_elem_of, list_elem_of_filter in Hl as [Hpv Hin].
    split; [|by eexists]. intros _. left. rewrite <- Hpv.
    by apply list_elem_of_fmap_2.
  - apply last_None in Hl. split; [by right|]. intros [Hin|?]; [|done].
    apply list_elem_of_fmap in Hin as (qv & -> & Hin).
    assert (qv ∈ filter (λ pv : Z * Z, pv.1 = qv.1) ws) as Hf
      by by apply list_elem_of_filter.
    rewrite Hl in Hf. by apply elem_of_nil in Hf.
Qed.

Lemma thread_alive_thread_exit (t : nat) (w : World) :
  thread_alive (thread_exit t w) = true → thread_alive w = true.
Proof.
  unfold thread_alive, thread_exit; cbn.
  destruct (_thread (monitor w)) as [t'|]; [|done].
  destruct (<[t:=false]> (threads w) !! t') as [[]|] eqn:Hl; [|done..].
  intros _. by rewrite (lookup_insert_false _ _ _ Hl).
Qed.

Section more_invariants.
Context (GPIO : option RPiGPIO) (ps : list Z) (lm : gmap Z string) (iv : Q).

Lemma cache_within_step w1 w2 :
  well_formed ps lm iv w1 ∧ cache_within ps w1 →
  step_result GPIO w1 w2 →
  well_formed ps lm iv w2 ∧ cache_within ps w2.
Proof.
  intros [Hwf [Hin Hall]] Hstep.
  split; [by eapply well_formed_step|].
  assert (∀ r ws n' evs,
    scan_pins GPIO (reads w1) (_pins (monitor w1)) = (r, ws, n', evs) →
    cache_within ps (after_scan w1 ws n' evs) ∧
    (r = Returns tt → ∀ p, p ∈ ps →
       is_Some (_last_values (monitor (after_scan w1 ws n' evs)) !! p)))
    as Hscan.
  { intros r ws n' evs Hsc.
    pose proof (scan_pins_writes GPIO (reads w1) (_pins (monitor w1))) as [Hpre Heq].
    rewrite Hsc, (wf_pins _ _ _ _ Hwf) in Hpre, Heq. cbn in Hpre, Heq.
    split; [split|].
    - intros p. cbn. rewrite apply_writes_is_Some. intros [Hp|Hp]; [|by apply Hin].
      destruct Hpre as [k ->]. apply elem_of_app. by left.
    - rewrite snapshots_after_scan by by eapply scan_pins_snapshots_eq.
      destruct Hall as [?|Hall]; [by left | right].
      intros p Hp. cbn. apply apply_writes_is_Some. right. by apply Hall.
    - intros Hr p Hp. cbn. apply apply_writes_is_Some. left. by rewrite Heq. }
  destruct Hstep as [|hw HG Hna|exited|t w2 Hround].
  - done.
  - split; [done|]. by rewrite snapshots_started.
  - split; [done|]. by rewrite snapshots_stopped.
  - destruct Hround as [| | ws n' evs _ _ Hsc | ws n' evs _ _ Hsc _
                        | ws n' evs _ _ Hsc _].
    + done.
    + done.
    + by destruct (Hscan _ _ _ _ Hsc) as [? _].
    + destruct (Hscan _ _ _ _ Hsc) as [[Hin' _] Hall'].
      split; [done|]. right. by apply Hall'.
    + destruct (Hscan _ _ _ _ Hsc) as [[Hin' _] Hall'].
      split; [done|]. right. by apply Hall'.
Qed.

Lemma populated_step w1 w2 :
  well_formed ps lm iv w1 ∧ Forall (populated ps lm) (snapshots (log w1)) →
  step_result GPIO w1 w2 →
  well_formed ps lm iv w2 ∧ Forall (populated ps lm) (snapshots (log w2)).
Proof.
  intros [Hwf Hpop] Hstep. split; [by eapply well_formed_step|].
  destruct Hstep as [|hw HG Hna|exited|t w2 Hround].
  - done.
  - by rewrite snapshots_started.
  - by rewrite snapshots_stopped.
  - assert (∀ ws n' evs,
      snapshots evs = [] →
      Forall (populated ps lm)
        (snapshots (log (after_scan w1 ws n' evs)) ++
         [AllGPIOStates_init (get_all_states (monitor (after_scan w1 ws n' evs)))]))
      as Hemit.
    { intros ws n' evs Hevs. rewrite snapshots_after_scan by done.
      apply Forall_app. split; [done|]. constructor; [|constructor].
      exists (apply_writes ws (_last_values (monitor w1))). intros p.
      rewrite get_all_states_fmap. cbn [after_scan monitor set_cache _pins
        _label_map _last_values].
      rewrite (wf_pins _ _ _ _ Hwf), (wf_labels _ _ _ _ Hwf).
      apply snapshot_lookup. }
    destruct Hround as [| | ws n' evs _ _ Hsc | ws n' evs _ _ Hsc _
                        | ws n' evs _ _ Hsc _].
    + done.
    + done.
    + change (log (thread_exit t ?w')) with (log w').
      by rewrite snapshots_after_scan by by eapply scan_pins_snapshots_eq.
    + change (log (thread_exit t ?w')) with (log w').
      rewrite snapshots_after_update. apply Hemit.
      by eapply scan_pins_snapshots_eq.
    + rewrite snapshots_after_emit. apply Hemit.
      by eapply scan_pins_snapshots_eq.
Qed.

Lemma ready_step w1 w2 :
  well_formed ps lm iv w1 ∧ ready ps w1 →
  step_result GPIO w1 w2 →
  well_formed ps lm iv w2 ∧ ready ps w2.
Proof.
  intros [Hwf Hready] Hstep. split; [by eapply well_formed_step|].
  destruct Hstep as [|hw HG Hna|exited|t w2 Hround].
  - done.
  - intros _ _. cbn. rewrite (wf_pins _ _ _ _ Hwf).
    intros p Hp. apply elem_of_app. by right.
  - intros _ Hs. by cbn in Hs.
  - destruct Hround as [| | ws n' evs _ _ Hsc | ws n' evs _ _ Hsc _
                        | ws n' evs _ _ Hsc _].
    + done.
    + intros Ha Hs. apply Hready; [by apply (thread_alive_thread_exit t)|done].
    + intros Ha Hs. apply thread_alive_thread_exit in Ha. by apply Hready.
    + intros Ha Hs. apply thread_alive_thread_exit in Ha. by apply Hready.
    + done.
Qed.
End more_invariants.

Lemma client_step_monitor GPIO (w : World) (c : client_call) :
  ∃ b t, monitor (step GPIO w (Client c)) = set_thread t (set_stop b (monitor w)).
Proof.
  assert (monitor w = set_thread (_thread (monitor w))
                        (set_stop (_stop (monitor w)) (monitor w))) as Hid
    by by destruct (monitor w).
  destruct c as [|exited]; cbn [step].
  - destruct GPIO as [hw|].
    + destruct (thread_alive w) eqn:Ha.
      * rewrite (start_alive hw w Ha). by eexists _, _.
      * rewrite (start_spawn hw w Ha). by eexists _, _.
    + by eexists _, _.
  - rewrite stop_eq. exists true, (_thread (monitor w)). cbn [snd stopped monitor].
    by destruct (monitor w).
Qed.

Lemma configuration_step GPIO (w1 w2 : World) :
  step_result GPIO w1 w2 →
  _pins (monitor w2) = _pins (monitor w1) ∧
  _label_map (monitor w2) = _label_map (monitor w1) ∧
  _interval_s (monitor w2) = _interval_s (monitor w1).
Proof.
  intros Hstep. destruct Hstep as [|hw HG Hna|exited|t w2 Hround]; [done..|].
  by destruct Hround.
Qed.

(** X4. In every world the machine can reach, the cache has entries for
    configured pins only; and as soon as one snapshot has been handed to the
    callback it has an entry for every configured pin, so that the default
    0 of [get_all_states] is only ever used before the first completed
    tick. *)
Theorem cache_holds_the_configured_pins
    (GPIO : option RPiGPIO) (ps : list Z) (lm : gmap Z string) (iv : Q)
    (cs : list call) :
  let w := run GPIO cs (World_init (GPIOMonitor_init ps lm iv)) in
  (∀ p, is_Some (_last_values (monitor w) !! p) → p ∈ ps) ∧
  (snapshots (log w) = [] ∨
   ∀ p, p ∈ ps → is_Some (_last_values (monitor w) !! p)).
Proof.
  intros w. subst w.
  refine (proj2 (run_invariant GPIO
    (λ w, well_formed ps lm iv w ∧ cache_within ps w) cs _ _ _)).
  - intros w1 w2. apply cache_within_step.
  - split; [apply well_formed_init|]. split; [|by left].
    intros p. cbn. rewrite lookup_empty. by intros [? ?].
Qed.

(** X5. Every snapshot ever handed to the callback is fully populated:
    for some contents of the cache, it has for every configured pin the
    entry of that pin, its cached value and its label, and no entry for any
    other pin. *)
Theorem delivered_snapshots_are_populated
    (GPIO : option RPiGPIO) (ps : list Z) (lm : gmap Z string) (iv : Q)
    (cs : list call) :
  let w := run GPIO cs (World_init (GPIOMonitor_init ps lm iv)) in
  Forall (populated ps lm) (snapshots (log w)).
Proof.
  intros w. subst w.
  refine (proj2 (run_invariant GPIO
    (λ w, well_formed ps lm iv w ∧ Forall (populated ps lm) (snapshots (log w)))
    cs _ _ _)).
  - intros w1 w2. apply populated_step.
  - split; [apply well_formed_init | constructor].
Qed.

(** X6. No operation changes the configuration: whatever is called and
    however often the loop runs, from any world, the pin list, the label map
    and the interval of the monitor stay what they were. *)
Theorem configuration_is_never_changed
    (GPIO : option RPiGPIO) (w : World) (cs : list call) :
  _pins (monitor (run GPIO cs w)) = _pins (monitor w) ∧
  _label_map (monitor (run GPIO cs w)) = _label_map (monitor w) ∧
  _interval_s (monitor (run GPIO cs w)) = _interval_s (monitor w).
Proof.
  apply (run_invariant GPIO
    (λ w', _pins (monitor w') = _pins (monitor w) ∧
           _label_map (monitor w') = _label_map (monitor w) ∧
           _interval_s (monitor w') = _interval_s (monitor w))); [|done].
  intros w1 w2 (H1 & H2 & H3) Hstep.
  destruct (configuration_step GPIO w1 w2 Hstep) as (-> & -> & ->). done.
Qed.

(** X7. Calls of [start] and [stop] never change what [get_all_states]
    returns: [stop] does not reset the cache, and after a restart the pull
    accessor keeps reporting the values of the last tick until the next
    one. *)
Theorem start_and_stop_keep_the_reported_states
    (GPIO : option RPiGPIO) (w : World) (ccs : list client_call) :
  get_all_states (monitor (run GPIO (Client <$> ccs) w)) =
  get_all_states (monitor w).
Proof.
  revert w. induction ccs as [|c ccs IH]; intros w; [done|].
  cbn [fmap list_fmap run foldl]. unfold run in IH. rewrite IH.
  by destruct (client_step_monitor GPIO w c) as (b & t & ->).
Qed.

(** X8. In every world the machine can reach, a thread that is about to
    run a tick (it is alive and the stop event is not set) finds every
    configured pin set up in the hardware: no tick begins before [start]
    has set the pins up or after [stop] has cleaned them up. *)
Theorem ticks_begin_with_the_pins_set_up
    (GPIO : option RPiGPIO) (ps : list Z) (lm : gmap Z string) (iv : Q)
    (cs : list call) (t : nat) :
  let w := run GPIO cs (World_init (GPIOMonitor_init ps lm iv)) in
  threads w !! t = Some true →
  _stop (monitor w) = false →
  ps ⊆ channels w.
Proof.
  intros w Ht Hs.
  assert (well_formed ps lm iv w ∧ ready ps w) as [Hwf Hready].
  { subst w. apply (run_invariant GPIO
      (λ w, well_formed ps lm iv w ∧ ready ps w)).
    - intros w1 w2. apply ready_step.
    - split; [apply well_formed_init | done]. }
  apply Hready; [|done]. unfold thread_alive.
  by rewrite (wf_alive _ _ _ _ Hwf t Ht), Ht.
Qed.

Lemma ticks_begin_with_the_pins_set_up_witness :
  [17; 27] ⊆ channels (run (Some hw_button) [Client Start; Round 0]
                         (World_init demo_monitor)).
Proof.
  apply (ticks_begin_with_the_pins_set_up (Some hw_button) [17; 27]
           {[ 17 := "button"%string ]} (1 # 100) [Client Start; Round 0] 0%nat);
    reflexivity.
Defined.

(** ** After [stop] *)

Lemma thread_alive_stopped GPIO (w : World) :
  thread_alive (stopped GPIO true w) = false.
Proof.
  unfold thread_alive at 1, stopped. cbn. rewrite andb_true_r.
  destruct (_thread (monitor w)) as [t|] eqn:Ht; [|done].
  unfold thread_alive. rewrite Ht.
  destruct (threads w !! t) as [[]|] eqn:Hl; cbn.
  - rewrite list_lookup_insert_eq; [done|]. by apply lookup_lt_Some in Hl.
  - by rewrite Hl.
  - by rewrite Hl.
Qed.

(** X9. In every world the machine can reach, after a [stop] whose join
    succeeded no thread is alive: rounds of the loop then change nothing at
    all (no pin is read, the callback is not invoked) until [start] is
    called again, and [get_all_states] returns what it returned before
    [stop]. *)
Theorem nothing_is_delivered_after_stop
    (GPIO : option RPiGPIO) (ps : list Z) (lm : gmap Z string) (iv : Q)
    (cs : list call) (ts : list nat) :
  let w := run GPIO cs (World_init (GPIOMonitor_init ps lm iv)) in
  let w1 := (stop GPIO true w).2 in
  Forall (λ b, b = false) (threads w1) ∧
  run GPIO (Round <$> ts) w1 = w1 ∧
  get_all_states (monitor w1) = get_all_states (monitor w).
Proof.
  intros w w1. subst w1. rewrite stop_eq. cbn [snd].
  pose proof (well_formed_run GPIO ps lm iv cs) as Hwf. fold w in Hwf.
  assert (Forall (λ b, b = false) (threads (stopped GPIO true w))) as Hdead.
  { apply Forall_lookup. intros i [] Hi; [|done]. exfalso.
    assert (threads w !! i = Some true) as Hi'.
    { revert Hi. cbn. destruct (_thread (monitor w)) as [t|]; [|done].
      destruct (thread_alive w && true); [|done]. apply lookup_insert_false. }
    pose proof (wf_alive _ _ _ _ Hwf i Hi') as Ht.
    revert Hi. cbn. unfold thread_alive. rewrite Ht, Hi'. cbn.
    rewrite list_lookup_insert_eq; [done|]. by apply lookup_lt_Some in Hi'. }
  split; [done|]. split; [|done].
  induction ts as [|t ts IH]; [done|].
  cbn [fmap list_fmap run foldl step]. unfold run in IH.
  assert (round GPIO t (stopped GPIO true w) = stopped GPIO true w) as ->; [|done].
  unfold round.
  destruct (threads (stopped GPIO true w) !! t) as [b|] eqn:Hb; [|done].
  rewrite Forall_lookup in Hdead. by rewrite (Hdead t b Hb).
Qed.

(** X10. A [start] that comes while a [stop] whose join timed out has left
    the old thread alive is lost: it returns without clearing the stop
    event and without a new thread, the old thread ends at its next round,
    and the monitor is left stopped with no thread. *)
Theorem start_after_timed_out_stop_is_lost
    (GPIO : option RPiGPIO) (w : World) (t : nat) :
  _thread (monitor w) = Some t →
  threads w !! t = Some true →
  let w1 := (stop GPIO false w).2 in
  let w2 := round GPIO t (start GPIO w1).2 in
  start GPIO w1 = (Returns tt, w1) ∧
  _stop (monitor w2) = true ∧
  thread_alive w2 = false ∧
  log w2 = log w1.
Proof.
  intros Ht Ha w1 w2. subst w2 w1. rewrite stop_eq. cbn [snd].
  assert (threads (stopped GPIO false w) = threads w) as Hth.
  { cbn. rewrite andb_false_r. by rewrite Ht. }
  assert (thread_alive (stopped GPIO false w) = true) as Halive.
  { unfold thread_alive. rewrite Hth. cbn. by rewrite Ht, Ha. }
  assert (start GPIO (stopped GPIO false w) = (Returns tt, stopped GPIO false w))
    as Hstart.
  { destruct GPIO as [hw|]; [by apply start_alive | done]. }
  rewrite Hstart. cbn [snd]. split; [done|].
  unfold round. rewrite Hth, Ha. cbn [default from_option id set_stop _stop
    stopped monitor].
  split; [done|]. split; [|done].
  unfold thread_alive, thread_exit. cbn. rewrite Ht, andb_false_r.
  rewrite list_lookup_insert_eq; [done|]. by apply lookup_lt_Some in Ha.
Qed.

Lemma start_after_timed_out_stop_is_lost_witness :
  let w := run (Some hw_button) [Client Start] (World_init demo_monitor) in
  let w1 := (stop (Some hw_button) false w).2 in
  thread_alive (round (Some hw_button) 0 (start (Some hw_button) w1).2) = false.
Proof.
  intros w w1.
  refine (proj1 (proj2 (proj2
    (start_after_timed_out_stop_is_lost (Some hw_button) w 0%nat _ _))));
    reflexivity.
Defined.

(** ** Ticks with hardware that answers *)

Lemma scan_pins_always_returns GPIO (n : nat) (ps : list Z) :
  always_returns GPIO →
  (scan_pins GPIO n ps).1.1.1 = Returns tt ∧
  (scan_pins GPIO n ps).1.2 =
    match GPIO with Some _ => (n + length ps)%nat | None => n end.
Proof.
  intros Hret. revert n. induction ps as [|p ps IH]; intros n.
  - cbn. split; [done|]. destruct GPIO; [lia | done].
  - cbn [scan_pins]. destruct GPIO as [hw|] eqn:HG.
    + destruct (Hret hw n p eq_refl) as [v ->].
      destruct (IH (S n)) as [Hr Hn].
      destruct (scan_pins (Some hw) (S n) ps) as [[[r ws] n'] evs].
      cbn in *. split; [done | lia].
    + destruct (IH n) as [Hr Hn].
      by destruct (scan_pins None n ps) as [[[r ws] n'] evs].
Qed.

Lemma loop_body_always_returns GPIO (w : World) :
  always_returns GPIO →
  ∃ ws evs,
    snapshots evs = [] ∧
    loop_body GPIO w =
      let w1 := after_scan w ws
                  match GPIO with
                  | Some _ => (reads w + length (_pins (monitor w)))%nat
                  | None => reads w
                  end evs in
      if Qle_bool 0 (_interval_s (monitor w))
      then (Returns tt, after_emit w1) else (Raises, after_update w1).
Proof.
  intros Hret. rewrite loop_body_scan.
  destruct (scan_pins_always_returns GPIO (reads w) (_pins (monitor w)) Hret)
    as [Hr Hn].
  pose proof (scan_pins_snapshots GPIO (reads w) (_pins (monitor w))) as Hsn.
  destruct (scan_pins GPIO (reads w) (_pins (monitor w))) as [[[r ws] n'] evs].
  cbn in Hr, Hn, Hsn. subst r n'. by exists ws, evs.
Qed.

(** X11. A [stop] whose join succeeded followed by a [start], with the
    hardware module: the old thread is dead, [start] returns with the stop
    event cleared and a fresh thread alive, the pins set up are exactly the
    configured ones again, [get_all_states] still returns what it did
    before, and when the hardware answers its reads the new thread's first
    round hands one more snapshot to the callback. *)
Theorem restart_after_stop_samples_again (hw : RPiGPIO) (w : World) :
  always_returns (Some hw) →
  let w1 := (stop (Some hw) true w).2 in
  let w2 := (start (Some hw) w1).2 in
  thread_alive w1 = false ∧
  (start (Some hw) w1).1 = Returns tt ∧
  _thread (monitor w2) = Some (length (threads w)) ∧
  thread_alive w2 = true ∧
  _stop (monitor w2) = false ∧
  channels w2 = _pins (monitor w) ∧
  get_all_states (monitor w2) = get_all_states (monitor w) ∧
  length (snapshots (log (round (Some hw) (length (threads w)) w2))) =
    S (length (snapshots (log w))).
Proof.
  intros Hret w1 w2. subst w2 w1. rewrite stop_eq. cbn [snd].
  pose proof (thread_alive_stopped (Some hw) w) as Hdead.
  rewrite (start_spawn hw _ Hdead). cbn [fst snd].
  assert (length (threads (stopped (Some hw) true w)) = length (threads w)) as Hlen.
  { cbn. destruct (_thread (monitor w)); [|done].
    destruct (thread_alive w && true); [by rewrite length_insert | done]. }
  split; [done|]. split; [done|].
  split; [cbn [started monitor set_thread _thread]; by rewrite Hlen|].
  split; [apply thread_alive_started|]. split; [done|]. split; [done|].
  split; [done|].
  unfold round. rewrite <- Hlen.
  replace (threads (started (stopped (Some hw) true w))
             !! length (threads (stopped (Some hw) true w))) with (Some true)
    by (cbn [started threads]; by rewrite lookup_app_r, Nat.sub_diag by lia).
  cbn [default from_option id started monitor set_thread set_stop _stop].
  destruct (loop_body_always_returns (Some hw)
              (started (stopped (Some hw) true w)) Hret) as (ws & evs & Hevs & ->).
  cbn zeta.
  destruct (Qle_bool 0 (_interval_s (monitor (started (stopped (Some hw) true w))))).
  - rewrite snapshots_after_emit, snapshots_after_scan by done.
    rewrite snapshots_started, snapshots_stopped, length_app. cbn. lia.
  - change (log (thread_exit ?t ?w')) with (log w').
    rewrite snapshots_after_update, snapshots_after_scan by done.
    rewrite snapshots_started, snapshots_stopped, length_app. cbn. lia.
Qed.

Lemma restart_after_stop_samples_again_witness :
  let w := run (Some hw_button) [Client Start; Round 0] (World_init demo_monitor) in
  let w2 := (start (Some hw_button) (stop (Some hw_button) true w).2).2 in
  thread_alive w2 = true ∧ channels w2 = [17; 27].
Proof.
  intros w w2.
  assert (always_returns (Some hw_button)) as Hret.
  { intros hw n p [= <-]. by eexists. }
  destruct (restart_after_stop_samples_again hw_button w Hret)
    as (_ & _ & _ & Ha & _ & Hc & _).
  split; [exact Ha | exact Hc].
Defined.





(** ** The subscriber's URL *)

Lemma list_ascii_of_string_app (s t : string) :
  String.list_ascii_of_string (s +:+ t) =
    String.list_ascii_of_string s ++ String.list_ascii_of_string t.
Proof.
  induction s as [|a s IH]; [done|].
  cbn [String.list_ascii_of_string app]. rewrite <- IH. reflexivity.
Qed.

Lemma string_app_inv_tail (s1 s2 t : string) :
  s1 +:+ t = s2 +:+ t → s1 = s2.
Proof.
  intros H. apply (f_equal String.list_ascii_of_string) in H.
  rewrite !list_ascii_of_string_app in H. apply app_inv_tail in H.
  apply (f_equal String.string_of_list_ascii) in H.
  by rewrite !String.string_of_list_ascii_of_string in H.
Qed.

(** X14. The URL [main] hands to [subscribe]: a [--url] other than the
    default is used as it is, whatever [--host] and [--port] say; when the
    URL is the default one (given or not), the result is always
    ws://host:port/ws, which for the default host and port is the default
    URL again; and then two different ports never give the same URL. *)
Theorem main_url_uses_host_and_port_for_the_default_url_only
    (url host : string) (port port' : Z) :
  main_url url host port =
    (if decide (url = default_url)
     then "ws://" +:+ host +:+ ":" +:+ pretty port +:+ "/ws"
     else url) ∧
  (main_url default_url host port = main_url default_url host port' →
   port = port').
Proof.
  assert (∀ u h p, main_url u h p =
    if decide (u = default_url)
    then "ws://" +:+ h +:+ ":" +:+ pretty p +:+ "/ws" else u) as Heq.
  { intros u h p. unfold main_url.
    destruct (decide (u = default_url)) as [->|Hne].
    - rewrite bool_decide_eq_true_2 by done. cbn [andb].
      destruct (decide (h = "localhost"%string)) as [->|Hh].
      + destruct (decide (p = 8000)) as [->|Hp].
        * by vm_compute.
        * rewrite (bool_decide_eq_true_2 (p ≠ 8000)) by done.
          by rewrite orb_true_r.
      + by rewrite (bool_decide_eq_true_2 (h ≠ "localhost"%string)) by done.
    - by rewrite bool_decide_eq_false_2 by done. }
  split; [apply Heq|]. rewrite !Heq, !decide_True by done.
  intros H. do 3 apply (inj (String.app _)) in H.
  apply string_app_inv_tail in H. by apply (inj pretty).
Qed.

Lemma main_url_uses_host_and_port_for_the_default_url_only_witness :
  main_url default_url "raspberrypi" 9000 = "ws://raspberrypi:9000/ws"%string ∧
  9000 = 9000.
Proof.
  destruct (main_url_uses_host_and_port_for_the_default_url_only
              default_url "raspberrypi" 9000 9000) as [H1 H2].
  split; [exact H1 | exact (H2 eq_refl)].
Defined.

(** ** Nothing is lost between the list and the snapshot *)

Lemma state_dict_inj (s s' : GPIOState) : state_dict s = state_dict s' → s = s'.
Proof.
  destruct s as [p v l], s' as [p' v' l']. unfold state_dict; cbn.
  intros [= -> -> Hl]. f_equal. by destruct l, l'; simplify_eq.
Qed.

(** X15. Every state of the list [get_all_states] returns can be looked up
    in the snapshot built from that list, under its pin, also when a pin is
    configured twice (the states of one pin are then equal); and the
    dictionary of a state determines the state. *)
Theorem every_reported_state_is_in_the_snapshot
    (m : GPIOMonitor) (s s' : GPIOState) :
  s ∈ get_all_states m →
  dict_get (pin s) (pins (AllGPIOStates_init (get_all_states m)))
    = Some (state_dict s) ∧
  (s' ∈ get_all_states m → pin s' = pin s → s' = s) ∧
  (state_dict s' = state_dict s → s' = s).
Proof.
  rewrite get_all_states_fmap. intros (p & -> & Hp)%list_elem_of_fmap.
  split; [|split].
  - rewrite snapshot_lookup. cbn [pin state_of]. by rewrite decide_True.
  - intros (p' & -> & Hp')%list_elem_of_fmap. cbn. by intros ->.
  - apply state_dict_inj.
Qed.

Lemma every_reported_state_is_in_the_snapshot_witness :
  let m := set_cache {[ 5 := 1 ]} (GPIOMonitor_init [5; 5] ∅ 1) in
  let s := {| pin := 5; value := 1; label := None |} in
  dict_get 5 (pins (AllGPIOStates_init (get_all_states m))) = Some (state_dict s).
Proof.
  intros m s.
  refine (proj1 (every_reported_state_is_in_the_snapshot m s s _)).
  vm_compute. left.
Defined.

(** X16. A [stop] right after a [stop] whose join succeeded changes
    nothing in the monitor, its threads or the hardware channels: it joins
    nothing, and all it adds is one more call of [GPIO.cleanup()] when there
    is a hardware module. *)
Theorem second_stop_only_cleans_up_again
    (GPIO : option RPiGPIO) (w : World) (exited : bool) :
  let w1 := (stop GPIO true w).2 in
  let w2 := (stop GPIO exited w1).2 in
  monitor w2 = monitor w1 ∧ threads w2 = threads w1 ∧
  channels w2 = channels w1 ∧ reads w2 = reads w1 ∧
  log w2 = log w1 ++ match GPIO with Some _ => [EvCleanup] | None => [] end.
Proof.
  intros w1 w2. subst w2 w1. rewrite !stop_eq. cbn [snd].
  pose proof (thread_alive_stopped GPIO w) as Hdead.
  split; [done|]. split; [|split; [by destruct GPIO|split; [done|]]].
  - unfold stopped at 1. cbn [threads]. rewrite Hdead. cbn [andb].
    by destruct (_thread (monitor (stopped GPIO true w))).
  - unfold stopped at 1. cbn [log]. by rewrite Hdead.
Qed.
